(** * Snake game server: the match session engine of [src/index.ts]

    A shallow embedding of the [GameRoom] class (simulation step, collision
    check, reset) and of the four socket handlers ([createRoom], [joinRoom],
    [direction], [disconnect]), followed by the properties of the engine.

    Numbers.  Every coordinate, score and timestamp the program stores is an
    integer-valued JavaScript number, modelled in [Z].  The result of
    [Math.random()] and its product with the number of cells are binary64
    values, modelled by [Binary64] with the rounding of IEEE 754 (to nearest,
    ties to even); the fraction [1000 / GAME_SPEED] is compared with integer
    differences only and is modelled in [Q].  JavaScript's [%] is the
    truncated remainder [Z.rem].

    Effects.  [Math.random()] and [Date.now()] are read from two tapes held
    in a [World]; a function of the program that reads them, or that may
    throw a [TypeError], lives in the monad [JS]. *)

From Stdlib Require Import ZArith QArith List String Bool Lia SpecFloat.
Import ListNotations.

Local Open Scope Z_scope.

(** ** Constants (index.ts, lines 24-43) *)

Definition CANVAS_WIDTH : Z := 800.
Definition CANVAS_HEIGHT : Z := 600.
Definition BLOCK_SIZE : Z := 20.
Definition GAME_SPEED : Z := 15.

Module COLORS.
Definition GREEN : string := "#00FF00".
Definition BLUE : string := "#0000FF".
Definition RED : string := "#FF0000".
End COLORS.

Module Position.
Record t : Type := mk { x : Z; y : Z }.

(** [a.x === b.x && a.y === b.y] *)
Definition eqb (a b : t) : bool := (x a =? x b) && (y a =? y b).
End Position.

Module Direction.
Record t : Type := mk { x : Z; y : Z }.

Definition UP : t := {| x := 0; y := -1 |}.
Definition DOWN : t := {| x := 0; y := 1 |}.
Definition LEFT : t := {| x := -1; y := 0 |}.
Definition RIGHT : t := {| x := 1; y := 0 |}.

(** The values of the TypeScript type [Direction]. *)
Inductive valid : t -> Prop :=
| valid_UP : valid UP
| valid_DOWN : valid DOWN
| valid_LEFT : valid LEFT
| valid_RIGHT : valid RIGHT.

Definition neg (d : t) : t := {| x := - x d; y := - y d |}.

Definition vertical (d : t) : Prop := d = UP \/ d = DOWN.
Definition horizontal (d : t) : Prop := d = LEFT \/ d = RIGHT.
Definition same_axis (a b : t) : Prop :=
  (vertical a /\ vertical b) \/ (horizontal a /\ horizontal b).
Definition perpendicular (a b : t) : Prop :=
  (vertical a /\ horizontal b) \/ (horizontal a /\ vertical b).
End Direction.

(** ** The game state (index.ts, lines 51-56 and 64-83) *)

Record Snake : Type := mkSnake {
  positions : list Position.t;
  direction : Direction.t;
  color : string;
  score : Z;
  speed : Z
}.

Record Food : Type := mkFood {
  position : Position.t;
  food_color : string
}.

Record GameState : Type := mkGameState {
  snake1 : Snake;
  snake2 : Snake;
  food : Food;
  lastUpdate : Z
}.

(** Field updates, standing for assignments to one property of an object. *)
Definition set_positions (s : Snake) (ps : list Position.t) : Snake :=
  mkSnake ps (direction s) (color s) (score s) (speed s).
Definition set_direction (s : Snake) (d : Direction.t) : Snake :=
  mkSnake (positions s) d (color s) (score s) (speed s).
Definition set_score (s : Snake) (n : Z) : Snake :=
  mkSnake (positions s) (direction s) (color s) n (speed s).
Definition set_food (gs : GameState) (f : Food) : GameState :=
  mkGameState (snake1 gs) (snake2 gs) f (lastUpdate gs).
Definition set_lastUpdate (gs : GameState) (t : Z) : GameState :=
  mkGameState (snake1 gs) (snake2 gs) (food gs) t.

(** The two snake objects of a game state.  [update] iterates over the array
    [[snake1, snake2]] of references to them; a reference is modelled by its
    selector, so that a mutation through it is a mutation of the state. *)
Inductive SnakeRef : Type := Snake1 | Snake2.

Definition get_snake (r : SnakeRef) (gs : GameState) : Snake :=
  match r with Snake1 => snake1 gs | Snake2 => snake2 gs end.

Definition set_snake (r : SnakeRef) (s : Snake) (gs : GameState) : GameState :=
  match r with
  | Snake1 => mkGameState s (snake2 gs) (food gs) (lastUpdate gs)
  | Snake2 => mkGameState (snake1 gs) s (food gs) (lastUpdate gs)
  end.

(** ** Binary64 numbers

    A finite binary64 number is [mantissa * 2 ^ exponent] with a mantissa of
    at most 53 bits and an exponent of at least -1074.  Only what the program
    computes with fractions is modelled: the product and [Math.floor].
    Magnitudes of 2^1024 and more, which round to [Infinity], do not occur:
    the products of this program are below 64. *)

Module Binary64.
Record t : Type := mk { mantissa : Z; exponent : Z }.

(** An integer below 2^53 is a binary64 number as it is. *)
Definition of_Z (n : Z) : t := {| mantissa := n; exponent := 0 |}.

(** [M / 2^s] rounded to the nearest integer, ties to the even one; [M] is
    not negative and [s] is positive. *)
Definition shift_round (M s : Z) : Z :=
  let q := M / 2 ^ s in
  let r := M mod 2 ^ s in
  let half := 2 ^ (s - 1) in
  if r <? half then q
  else if half <? r then q + 1
  else if Z.even q then q else q + 1.

(** The binary64 number nearest to [M * 2^e], for [M] not negative: the
    mantissa keeps its 53 leading bits, and no exponent goes below -1074.
    When the rounding carries into a 54th bit the result is the power of
    two above. *)
Definition round (M e : Z) : t :=
  let s := Z.max (Z.log2 M - 52) (-1074 - e) in
  if s <=? 0 then {| mantissa := M; exponent := e |}
  else
    let q := shift_round M s in
    if q =? 2 ^ 53 then {| mantissa := 2 ^ 52; exponent := e + s + 1 |}
    else {| mantissa := q; exponent := e + s |}.

(** [a * b]: the exact product, rounded. *)
Definition mul (a b : t) : t :=
  let M := mantissa a * mantissa b in
  let r := round (Z.abs M) (exponent a + exponent b) in
  {| mantissa := Z.sgn M * mantissa r; exponent := exponent r |}.

(** [Math.floor] of a number that has an integer value in [Z]. *)
Definition floor (a : t) : Z :=
  if 0 <=? exponent a then mantissa a * 2 ^ exponent a
  else mantissa a / 2 ^ (- exponent a).

(** The binary64 numbers of [[0, 1)]: every one of them can be written with
    a mantissa below 2^53 and an exponent between -1074 and -53, and every
    such pair is one of them. *)
Definition unit_interval (a : t) : Prop :=
  0 <= mantissa a < 2 ^ 53 /\ -1074 <= exponent a <= -53.

(** The same number in the Standard Library's model of IEEE 754, which
    writes a number with the longest mantissa that its exponent allows. *)
Definition to_spec (a : t) : spec_float :=
  let d := Z.min (52 - Z.log2 (Z.abs (mantissa a))) (exponent a + 1074) in
  match mantissa a * 2 ^ d with
  | Z0 => S754_zero false
  | Zpos m => S754_finite false m (exponent a - d)
  | Zneg m => S754_finite true m (exponent a - d)
  end.
End Binary64.

(** ** The environment and the monad of effects *)

Record World : Type := mkWorld {
  random_tape : nat -> Binary64.t;   (* the successive results of Math.random() *)
  random_used : nat;
  clock_tape : nat -> Z;      (* the successive results of Date.now() *)
  clock_used : nat;
  uuid_tape : nat -> string;  (* the successive results of randomUUID() *)
  uuid_used : nat
}.

(** [Math.random()] returns a binary64 number in [[0, 1)]. *)
Definition random_ok (w : World) : Prop :=
  forall n, Binary64.unit_interval (random_tape w n).

(** [None] is a thrown [TypeError] (a property read on [undefined]). *)
Definition JS (A : Type) : Type := World -> option (A * World).

Definition ret {A : Type} (a : A) : JS A := fun w => Some (a, w).

Definition bind {A B : Type} (m : JS A) (k : A -> JS B) : JS B :=
  fun w => match m w with
           | Some (a, w') => k a w'
           | None => None
           end.

Definition throw {A : Type} : JS A := fun _ => None.

Declare Scope js_scope.
Delimit Scope js_scope with js.
Notation "x <- m ;; k" := (bind m (fun x => k))
  (at level 61, m at next level, right associativity) : js_scope.
Local Open Scope js_scope.

Definition Math_random : JS Binary64.t :=
  fun w => Some (random_tape w (random_used w),
                 mkWorld (random_tape w) (S (random_used w))
                         (clock_tape w) (clock_used w)
                         (uuid_tape w) (uuid_used w)).

Definition Date_now : JS Z :=
  fun w => Some (clock_tape w (clock_used w),
                 mkWorld (random_tape w) (random_used w)
                         (clock_tape w) (S (clock_used w))
                         (uuid_tape w) (uuid_used w)).

Definition randomUUID : JS string :=
  fun w => Some (uuid_tape w (uuid_used w),
                 mkWorld (random_tape w) (random_used w)
                         (clock_tape w) (clock_used w)
                         (uuid_tape w) (S (uuid_used w))).

(** ** GameRoom.generateFood (lines 85-94)

    [x] is computed before [y], so it takes the first of the two random
    numbers.  The quotients [CANVAS_WIDTH / BLOCK_SIZE] and
    [CANVAS_HEIGHT / BLOCK_SIZE] are the integers 40 and 30, which a binary64
    division returns exactly; the product with the random number is rounded
    to binary64 before [Math.floor] is taken; the product of the resulting
    integer with [BLOCK_SIZE] is exact. *)

Definition generateFood : JS Food :=
  r1 <- Math_random ;;
  r2 <- Math_random ;;
  ret {| position :=
           {| Position.x :=
                Binary64.floor
                  (Binary64.mul r1
                     (Binary64.of_Z (CANVAS_WIDTH / BLOCK_SIZE)))
                * BLOCK_SIZE;
              Position.y :=
                Binary64.floor
                  (Binary64.mul r2
                     (Binary64.of_Z (CANVAS_HEIGHT / BLOCK_SIZE)))
                * BLOCK_SIZE |};
         food_color := COLORS.RED |}.

(** ** GameRoom.initializeGameState (lines 64-83)

    The divisions [CANVAS_WIDTH / 4], [(CANVAS_WIDTH * 3) / 4] and
    [CANVAS_HEIGHT / 2] are exact. *)

Definition initial_snake1 : Snake :=
  {| positions := [ {| Position.x := CANVAS_WIDTH / 4;
                       Position.y := CANVAS_HEIGHT / 2 |} ];
     direction := Direction.RIGHT;
     color := COLORS.GREEN;
     score := 0;
     speed := GAME_SPEED |}.

Definition initial_snake2 : Snake :=
  {| positions := [ {| Position.x := (CANVAS_WIDTH * 3) / 4;
                       Position.y := CANVAS_HEIGHT / 2 |} ];
     direction := Direction.LEFT;
     color := COLORS.BLUE;
     score := 0;
     speed := GAME_SPEED |}.

Definition initializeGameState : JS GameState :=
  f <- generateFood ;;
  t <- Date_now ;;
  ret {| snake1 := initial_snake1;
         snake2 := initial_snake2;
         food := f;
         lastUpdate := t |}.

(** ** GameRoom.update (lines 96-130) *)

(** A JavaScript completion value of the functions modelled here. *)
Inductive jsval : Type :=
| js_undefined
| js_bool (b : bool).

(** Line 100: [now - lastUpdate < 1000 / GAME_SPEED].  The quotient is the
    fraction 200/3; the difference of two timestamps is an integer. *)
Definition too_early (now last : Z) : bool :=
  negb (Qle_bool (inject_Z 1000 / inject_Z GAME_SPEED) (inject_Z (now - last))).

(** Lines 107-110. *)
Definition newHead (head : Position.t) (d : Direction.t) : Position.t :=
  {| Position.x :=
       Z.rem (Position.x head + Direction.x d * BLOCK_SIZE + CANVAS_WIDTH)
             CANVAS_WIDTH;
     Position.y :=
       Z.rem (Position.y head + Direction.y d * BLOCK_SIZE + CANVAS_HEIGHT)
             CANVAS_HEIGHT |}.

(** The callback of [forEach] (lines 105-121).  [food0] is the constant
    [food] that line 97 destructures out of the state before the loop: the
    callback compares against it, and assigns the property
    [this.gameState.food]. *)
Definition moveSnake (food0 : Food) (r : SnakeRef) (gs : GameState)
  : JS GameState :=
  let snake := get_snake r gs in
  match nth_error (positions snake) 0 with
  | None => throw                          (* head is undefined: head.x throws *)
  | Some head =>
      let nh := newHead head (direction snake) in
      let snake := set_positions snake (nh :: positions snake) in   (* unshift *)
      if Position.eqb nh (position food0) then
        let snake := set_score snake (score snake + 1) in
        f <- generateFood ;;
        ret (set_food (set_snake r snake gs) f)
      else
        ret (set_snake r (set_positions snake (removelast (positions snake))) gs)
  end.

(** The whole loop over [[snake1, snake2]]. *)
Definition moveSnakes (gs : GameState) : JS GameState :=
  let food0 := food gs in
  gs1 <- moveSnake food0 Snake1 gs ;;
  moveSnake food0 Snake2 gs1.

(** ** GameRoom.checkCollision (lines 132-156) *)

(** [pos.x === head.x && pos.y === head.y], where [head] is the result of
    [positions[0]] and may be [undefined]. *)
Definition same_cell (head : option Position.t) (pos : Position.t)
  : option bool :=
  match head with
  | None => None
  | Some h => Some (Position.eqb pos h)
  end.

(** [Array.prototype.some] with a callback that may throw: the callback runs
    on the elements in order until it answers [true]. *)
Fixpoint some {A : Type} (f : A -> option bool) (l : list A) : option bool :=
  match l with
  | [] => Some false
  | a :: l' =>
      match f a with
      | None => None
      | Some true => Some true
      | Some false => some f l'
      end
  end.

(** [a || b] where [b] is evaluated only when [a] is false. *)
Definition orelse (a : option bool) (b : option bool) : option bool :=
  match a with
  | None => None
  | Some true => Some true
  | Some false => b
  end.

Definition checkSelfCollision (snake : Snake) : option bool :=
  let head := nth_error (positions snake) 0 in
  some (same_cell head) (tl (positions snake)).      (* slice(1) *)

Definition checkSnakeCollision (gs : GameState) : option bool :=
  let head1 := nth_error (positions (snake1 gs)) 0 in
  let head2 := nth_error (positions (snake2 gs)) 0 in
  orelse (some (same_cell head1) (positions (snake2 gs)))
         (some (same_cell head2) (positions (snake1 gs))).

Definition checkCollision (gs : GameState) : option bool :=
  orelse (checkSelfCollision (snake1 gs))
         (orelse (checkSelfCollision (snake2 gs)) (checkSnakeCollision gs)).

Definition lift {A : Type} (o : option A) : JS A :=
  fun w => match o with Some a => Some (a, w) | None => None end.

(** GameRoom.resetGame (lines 158-160). *)
Definition resetGame (_ : GameState) : JS GameState := initializeGameState.

(** Lines 104-129, the part of [update] behind the rate gate. *)
Definition advance (now : Z) (gs : GameState) : JS GameState :=
  gs1 <- moveSnakes gs ;;
  collision <- lift (checkCollision gs1) ;;
  gs2 <- (if collision then resetGame gs1 else ret gs1) ;;
  ret (set_lastUpdate gs2 now).

(** [update] has no return value: both the early [return;] of line 101 and
    the end of the body complete with [undefined]. *)
Definition update (gs : GameState) : JS (jsval * GameState) :=
  now <- Date_now ;;
  if too_early now (lastUpdate gs) then ret (js_undefined, gs)
  else
    gs' <- advance now gs ;;
    ret (js_undefined, gs').

(** ** Rooms and the registry (lines 48-62, 162-179) *)

(** A handle returned by [setInterval]. *)
Inductive Timeout : Type := Interval (handle : nat).

Record GameRoom : Type := mkGameRoom {
  id : string;
  players : list string;
  gameState : GameState;
  gameLoop : option Timeout
}.

Definition set_players (r : GameRoom) (ps : list string) : GameRoom :=
  mkGameRoom (id r) ps (gameState r) (gameLoop r).
Definition set_gameState (r : GameRoom) (gs : GameState) : GameRoom :=
  mkGameRoom (id r) (players r) gs (gameLoop r).
Definition set_gameLoop (r : GameRoom) (l : option Timeout) : GameRoom :=
  mkGameRoom (id r) (players r) (gameState r) l.

(** What a handler sends out or asks of the runtime, in program order. *)
Inductive Payload : Type :=
| no_payload
| text (s : string)
| state (gs : GameState).

Inductive Effect : Type :=
| socket_join (socket room : string)
| socket_emit (socket event : string) (p : Payload)
| io_to_emit (room event : string) (p : Payload)
| setInterval (h : Timeout)
| clearInterval (h : Timeout).

(** A JavaScript [Map] with string keys: the entries in insertion order. *)
Module Map.
Section Ops.
Context {V : Type}.

Definition t : Type := list (string * V).

Fixpoint get (k : string) (m : t) : option V :=
  match m with
  | [] => None
  | (k', v) :: m' => if String.eqb k k' then Some v else get k m'
  end.

(** [set] keeps the place of a key that is present, and appends a new
    one. *)
Fixpoint set (k : string) (v : V) (m : t) : t :=
  match m with
  | [] => [(k, v)]
  | (k', v') :: m' =>
      if String.eqb k k' then (k', v) :: m' else (k', v') :: set k v m'
  end.

Fixpoint delete (k : string) (m : t) : t :=
  match m with
  | [] => []
  | (k', v') :: m' =>
      if String.eqb k k' then m' else (k', v') :: delete k m'
  end.

Definition keys (m : t) : list string := map fst m.

(** Keys are unique in a [Map]. *)
Definition wf (m : t) : Prop := NoDup (keys m).
End Ops.
Arguments t : clear implicits.
End Map.

Record Server : Type := mkServer {
  rooms : Map.t GameRoom;
  next_timer : nat     (* the handle the next setInterval returns *)
}.

(** [Array.prototype.indexOf] ([None] for -1). *)
Fixpoint indexOf (s : string) (l : list string) : option nat :=
  match l with
  | [] => None
  | a :: l' =>
      if String.eqb a s then Some O
      else option_map S (indexOf s l')
  end.

(** [l.splice(i, 1)]. *)
Fixpoint splice1 {A : Type} (i : nat) (l : list A) : list A :=
  match l, i with
  | [], _ => []
  | _ :: l', O => l'
  | a :: l', S i' => a :: splice1 i' l'
  end.

(** The constructor of [GameRoom] (lines 59-62). *)
Definition new_GameRoom : JS GameRoom :=
  i <- randomUUID ;;
  gs <- initializeGameState ;;
  ret {| id := i; players := []; gameState := gs; gameLoop := None |}.

(** GameRoom.startGame (lines 162-169). *)
Definition startGame (room : GameRoom) (next : nat)
  : GameRoom * nat * list Effect :=
  match gameLoop room with
  | Some _ => (room, next, [])
  | None =>
      (set_gameLoop room (Some (Interval next)), S next,
       [setInterval (Interval next)])
  end.

(** GameRoom.stopGame (lines 171-176). *)
Definition stopGame (room : GameRoom) : GameRoom * list Effect :=
  match gameLoop room with
  | Some h => (set_gameLoop room None, [clearInterval h])
  | None => (room, [])
  end.

(** The callback of the interval (lines 165-168), run on a room whose loop
    is set. *)
Definition tick (room : GameRoom) : JS (GameRoom * list Effect) :=
  match gameLoop room with
  | None => ret (room, [])
  | Some _ =>
      r <- update (gameState room) ;;
      ret (set_gameState room (snd r),
           [io_to_emit (id room) "gameState" (state (snd r))])
  end.

(** ** The socket handlers (lines 184-248) *)

Definition on_createRoom (socket : string) (sv : Server)
  : JS (Server * list Effect) :=
  room <- new_GameRoom ;;
  (* rooms.set, then the push on the object the map now holds *)
  let room := set_players room (players room ++ [socket]) in
  ret (mkServer (Map.set (id room) room (rooms sv)) (next_timer sv),
       [socket_join socket (id room);
        socket_emit socket "roomCreated" (text (id room))]).

Definition RoomNotFound : string := "房间不存在".
Definition RoomFull : string := "房间已满".

Definition on_joinRoom (socket roomId : string) (sv : Server)
  : Server * list Effect :=
  match Map.get roomId (rooms sv) with
  | None => (sv, [socket_emit socket "error" (text RoomNotFound)])
  | Some room =>
      if (2 <=? List.length (players room))%nat then
        (sv, [socket_emit socket "error" (text RoomFull)])
      else
        let room := set_players room (players room ++ [socket]) in
        let '(room, next, fx) := startGame room (next_timer sv) in
        (mkServer (Map.set roomId room (rooms sv)) next,
         [socket_join socket roomId; io_to_emit roomId "roomJoined" no_payload]
         ++ fx)
  end.

(** The loops of the [direction] and [disconnect] handlers leave at the
    first room (in insertion order) whose player list holds the socket. *)
Fixpoint find_room (socket : string) (m : Map.t GameRoom)
  : option (string * GameRoom * nat) :=
  match m with
  | [] => None
  | (roomId, room) :: m' =>
      match indexOf socket (players room) with
      | Some playerIndex => Some (roomId, room, playerIndex)
      | None => find_room socket m'
      end
  end.

(** The condition of lines 221-225. *)
Definition rejected (d currentDir : Direction.t) : bool :=
  ((Direction.x d =? 0) && (Direction.x currentDir =? 0))
  || ((Direction.y d =? 0) && (Direction.y currentDir =? 0))
  || ((Direction.x d =? - Direction.x currentDir)
      && (Direction.y d =? - Direction.y currentDir)).

Definition player_snake (playerIndex : nat) : SnakeRef :=
  if (playerIndex =? 0)%nat then Snake1 else Snake2.

Definition on_direction (socket : string) (d : Direction.t) (sv : Server)
  : Server :=
  match find_room socket (rooms sv) with
  | None => sv
  | Some (roomId, room, playerIndex) =>
      let r := player_snake playerIndex in
      let snake := get_snake r (gameState room) in
      let currentDir := direction snake in
      if rejected d currentDir then sv
      else
        let room :=
          set_gameState room
            (set_snake r (set_direction snake d) (gameState room)) in
        mkServer (Map.set roomId room (rooms sv)) (next_timer sv)
  end.

Definition on_disconnect (socket : string) (sv : Server)
  : Server * list Effect :=
  match find_room socket (rooms sv) with
  | None => (sv, [])
  | Some (roomId, room, playerIndex) =>
      let room := set_players room (splice1 playerIndex (players room)) in
      let '(room, fx) := stopGame room in
      let rooms1 := Map.set roomId room (rooms sv) in
      if (List.length (players room) =? 0)%nat then
        (mkServer (Map.delete roomId rooms1) (next_timer sv), fx)
      else
        (mkServer rooms1 (next_timer sv), fx)
  end.

(** ** The event loop (lines 165-168 and 181-249)

    The server reacts to one event at a time: a message of a socket, or the
    interval of a room that fires. *)

(** The interval of the room held under [roomId] fires. *)
Definition on_tick (roomId : string) (sv : Server) : JS (Server * list Effect) :=
  match Map.get roomId (rooms sv) with
  | None => ret (sv, [])
  | Some room =>
      r <- tick room ;;
      ret (mkServer (Map.set roomId (fst r) (rooms sv)) (next_timer sv), snd r)
  end.

Inductive Event : Type :=
| ev_createRoom (socket : string)
| ev_joinRoom (socket roomId : string)
| ev_direction (socket : string) (d : Direction.t)
| ev_disconnect (socket : string)
| ev_interval (roomId : string).

Definition handle (e : Event) (sv : Server) : JS (Server * list Effect) :=
  match e with
  | ev_createRoom socket => on_createRoom socket sv
  | ev_joinRoom socket roomId => ret (on_joinRoom socket roomId sv)
  | ev_direction socket d => ret (on_direction socket d sv, [])
  | ev_disconnect socket => ret (on_disconnect socket sv)
  | ev_interval roomId => on_tick roomId sv
  end.

(** The events of a list, handled in order; the effects are collected. *)
Fixpoint run (es : list Event) (sv : Server) : JS (Server * list Effect) :=
  match es with
  | [] => ret (sv, [])
  | e :: es' =>
      r <- handle e sv ;;
      r' <- run es' (fst r) ;;
      ret (fst r', (snd r ++ snd r')%list)
  end.

(** * Vocabulary of the properties *)

(** ** Closed forms of the effects *)

(** The world after [n] more reads of [Math.random()]. *)
Definition draw (n : nat) (w : World) : World :=
  mkWorld (random_tape w) (n + random_used w) (clock_tape w) (clock_used w)
          (uuid_tape w) (uuid_used w).

(** The food that [generateFood] builds from two results of [Math.random()]. *)
Definition food_of (r1 r2 : Binary64.t) : Food :=
  {| position :=
       {| Position.x :=
            Binary64.floor
              (Binary64.mul r1 (Binary64.of_Z (CANVAS_WIDTH / BLOCK_SIZE)))
            * BLOCK_SIZE;
          Position.y :=
            Binary64.floor
              (Binary64.mul r2 (Binary64.of_Z (CANVAS_HEIGHT / BLOCK_SIZE)))
            * BLOCK_SIZE |};
     food_color := COLORS.RED |}.

(** The food generated in world [w]. *)
Definition next_food (w : World) : Food :=
  food_of (random_tape w (random_used w)) (random_tape w (S (random_used w))).

(** ** Predicates on cells, snakes and states *)

(** A cell of the grid: inside the canvas, on multiples of the block size. *)
Definition on_grid (p : Position.t) : Prop :=
  (0 <= Position.x p < CANVAS_WIDTH) /\
  (0 <= Position.y p < CANVAS_HEIGHT) /\
  (BLOCK_SIZE | Position.x p) /\
  (BLOCK_SIZE | Position.y p).

(** A snake has a head. *)
Definition has_head (s : Snake) : Prop := positions s <> [].

Definition nonempty (gs : GameState) : Prop :=
  has_head (snake1 gs) /\ has_head (snake2 gs).

(** [eats food0 s]: the eating check of line 115 for snake [s]. *)
Definition eats (food0 : Food) (s : Snake) : bool :=
  match positions s with
  | [] => false
  | head :: _ => Position.eqb (newHead head (direction s)) (position food0)
  end.

(** The snake object after the callback has run on it. *)
Definition moved (food0 : Food) (s : Snake) : Snake :=
  match positions s with
  | [] => s
  | head :: _ =>
      let nh := newHead head (direction s) in
      if eats food0 s then
        mkSnake (nh :: positions s) (direction s) (color s) (score s + 1)
                (speed s)
      else
        mkSnake (removelast (nh :: positions s)) (direction s) (color s)
                (score s) (speed s)
  end.

(** What one pass of the callback does to the snake it is called on:
    the two cases of lines 115-120. *)
Definition step_effect (food0 : Food) (s s' : Snake) : Prop :=
  exists head body,
    positions s = head :: body /\
    let nh := newHead head (direction s) in
    (nh <> position food0 ->
       positions s' = nh :: removelast (head :: body) /\
       List.length (positions s') = List.length (positions s) /\
       score s' = score s) /\
    (nh = position food0 ->
       positions s' = nh :: head :: body /\
       List.length (positions s') = S (List.length (positions s)) /\
       score s' = score s + 1).

(** The state after the loop, and the number of reads of [Math.random()] it
    makes: both passes test against the food of the state the loop starts
    from. *)
Definition after_moves (gs : GameState) (w : World) : GameState * World :=
  let food0 := food gs in
  let s1 := moved food0 (snake1 gs) in
  let s2 := moved food0 (snake2 gs) in
  match eats food0 (snake1 gs), eats food0 (snake2 gs) with
  | false, false => (mkGameState s1 s2 (food gs) (lastUpdate gs), w)
  | true, false => (mkGameState s1 s2 (next_food w) (lastUpdate gs), draw 2 w)
  | false, true => (mkGameState s1 s2 (next_food w) (lastUpdate gs), draw 2 w)
  | true, true =>
      (mkGameState s1 s2 (next_food (draw 2 w)) (lastUpdate gs), draw 4 w)
  end.

(** Collisions in the words of the rules of the game. *)
Definition self_collision (s : Snake) : Prop :=
  exists head rest, positions s = head :: rest /\ In head rest.

Definition head_hits (a b : Snake) : Prop :=
  exists head rest, positions a = head :: rest /\ In head (positions b).

Definition mutual_collision (a b : Snake) : Prop :=
  head_hits a b \/ head_hits b a.

Definition terminated (gs : GameState) : Prop :=
  self_collision (snake1 gs) \/ self_collision (snake2 gs)
  \/ mutual_collision (snake1 gs) (snake2 gs).

(** The check as a boolean, on snakes that have a head. *)
Definition collides (gs : GameState) : bool :=
  match positions (snake1 gs), positions (snake2 gs) with
  | h1 :: r1, h2 :: r2 =>
      existsb (fun pos => Position.eqb pos h1) r1
      || (existsb (fun pos => Position.eqb pos h2) r2
          || (existsb (fun pos => Position.eqb pos h1) (h2 :: r2)
              || existsb (fun pos => Position.eqb pos h2) (h1 :: r1)))
  | _, _ => false
  end.

Definition tick_clock (w : World) : World :=
  mkWorld (random_tape w) (random_used w) (clock_tape w) (S (clock_used w))
          (uuid_tape w) (uuid_used w).

Definition now_of (w : World) : Z := clock_tape w (clock_used w).

(** The state that [initializeGameState] builds in world [w]. *)
Definition fresh_state (w : World) : GameState :=
  {| snake1 := initial_snake1;
     snake2 := initial_snake2;
     food := next_food w;
     lastUpdate := now_of w |}.

(** The result of [advance], in closed form. *)
Definition advanced (now : Z) (gs : GameState) (w : World) : GameState * World :=
  let '(gs1, w1) := after_moves gs w in
  if collides gs1
  then (set_lastUpdate (fresh_state w1) now, tick_clock (draw 2 w1))
  else (set_lastUpdate gs1 now, w1).

(** ** Further closed forms and predicates *)

Definition in_canvas (p : Position.t) : Prop :=
  0 <= Position.x p < CANVAS_WIDTH /\ 0 <= Position.y p < CANVAS_HEIGHT.

Definition next_uuid (w : World) : string := uuid_tape w (uuid_used w).

Definition take_uuid (w : World) : World :=
  mkWorld (random_tape w) (random_used w) (clock_tape w) (clock_used w)
          (uuid_tape w) (S (uuid_used w)).

(** The room that [createRoom] registers for [socket] in world [w]. *)
Definition created_room (socket : string) (w : World) : GameRoom :=
  mkGameRoom (next_uuid w) [socket] (fresh_state (take_uuid w)) None.

(** The room after a successful join. *)
Definition joined_room (socket : string) (room : GameRoom) (next : nat)
  : GameRoom :=
  mkGameRoom (id room) (players room ++ [socket])%list (gameState room)
             (match gameLoop room with
              | Some h => Some h
              | None => Some (Interval next)
              end).

Definition turned_room (r : SnakeRef) (d : Direction.t) (room : GameRoom)
  : GameRoom :=
  set_gameState room
    (set_snake r (set_direction (get_snake r (gameState room)) d)
               (gameState room)).

(** The room after one of its players has left. *)
Definition left_room (playerIndex : nat) (room : GameRoom) : GameRoom :=
  mkGameRoom (id room) (splice1 playerIndex (players room)) (gameState room)
             None.

(** A cell of the row [y = 300] with [lo <= x <= hi]. *)
Definition in_row (lo hi : Z) (c : Position.t) : Prop :=
  Position.y c = 300 /\ lo <= Position.x c <= hi.

(** The snakes [k] steps after a reset when no player has turned: both on
    the row of their spawn cells, snake 1 between its spawn cell and its
    head, snake 2 likewise, still heading for each other. *)
Definition approaching (k : Z) (gs : GameState) : Prop :=
  direction (snake1 gs) = Direction.RIGHT /\
  direction (snake2 gs) = Direction.LEFT /\
  (exists b1, positions (snake1 gs) = Position.mk (200 + 20 * k) 300 :: b1 /\
              Forall (in_row 200 (200 + 20 * k - 20)) b1) /\
  (exists b2, positions (snake2 gs) = Position.mk (600 - 20 * k) 300 :: b2 /\
              Forall (in_row (600 - 20 * k + 20) 600) b2).

(** [n] steps in a row, each behind an open gate. *)
Fixpoint advances (n : nat) (now : Z) (gs : GameState) : JS GameState :=
  match n with
  | O => ret gs
  | S n' => gs' <- advance now gs ;; advances n' now gs'
  end.

(** ** Invariants of the game state and of the registry *)

(** A snake as the game keeps it: it has a head, lies on the grid, heads in
    one of the four directions, and has scored one point per cell it has
    grown. *)
Definition snake_ok (s : Snake) : Prop :=
  has_head s /\
  Forall on_grid (positions s) /\
  Direction.valid (direction s) /\
  score s = Z.of_nat (List.length (positions s)) - 1.

Definition state_ok (gs : GameState) : Prop :=
  snake_ok (snake1 gs) /\ snake_ok (snake2 gs) /\ on_grid (position (food gs)).

(** A room of the registry: held under its own id, with one or two players,
    its interval set exactly when it has two. *)
Definition room_ok (k : string) (room : GameRoom) : Prop :=
  id room = k /\
  (1 <= List.length (players room) <= 2)%nat /\
  (gameLoop room <> None <-> List.length (players room) = 2%nat) /\
  state_ok (gameState room).

Definition server_ok (sv : Server) : Prop :=
  Map.wf (rooms sv) /\
  Forall (fun kv => room_ok (fst kv) (snd kv)) (rooms sv).

(** Messages carry a value of the type [Direction]. *)
Definition event_ok (e : Event) : Prop :=
  match e with
  | ev_direction _ d => Direction.valid d
  | _ => True
  end.

(** The two snakes exchanged. *)
Definition swap_snakes (gs : GameState) : GameState :=
  mkGameState (snake2 gs) (snake1 gs) (food gs) (lastUpdate gs).

(** ** The room and the snake of a socket *)

(** The room a socket plays in, as the handlers look for it: the first room
    of the registry, in insertion order, whose player list holds the socket.
    [earlier] and [later] are the rooms around it, [before] and [after] the
    players around the socket's first entry. *)
Definition plays_in (socket : string) (sv : Server)
    (earlier : Map.t GameRoom) (roomId : string) (room : GameRoom)
    (later : Map.t GameRoom) (before after : list string) : Prop :=
  rooms sv = (earlier ++ (roomId, room) :: later)%list /\
  (forall k r, In (k, r) earlier -> ~ In socket (players r)) /\
  players room = (before ++ socket :: after)%list /\
  ~ In socket before.

(** The first player of a room steers snake 1, a player behind another one
    steers snake 2. *)
Definition steered (before : list string) (gs : GameState) : Snake :=
  match before with
  | [] => snake1 gs
  | _ :: _ => snake2 gs
  end.

(** The state in which that snake heads in direction [d]. *)
Definition steer (before : list string) (d : Direction.t) (gs : GameState)
  : GameState :=
  match before with
  | [] =>
      mkGameState
        (mkSnake (positions (snake1 gs)) d (color (snake1 gs))
                 (score (snake1 gs)) (speed (snake1 gs)))
        (snake2 gs) (food gs) (lastUpdate gs)
  | _ :: _ =>
      mkGameState
        (snake1 gs)
        (mkSnake (positions (snake2 gs)) d (color (snake2 gs))
                 (score (snake2 gs)) (speed (snake2 gs)))
        (food gs) (lastUpdate gs)
  end.

(** ** Two readings of the step that the code does not follow *)

(** Exclusive eating, as one could expect it: when both new heads are the
    food cell and the food generated for the first snake lies elsewhere,
    the loop increments at most one score and reads [Math.random()] for one
    food only. *)
Definition eating_is_exclusive (gs : GameState) (w : World) : Prop :=
  forall h1 b1 h2 b2 gs1 w1,
    positions (snake1 gs) = h1 :: b1 ->
    positions (snake2 gs) = h2 :: b2 ->
    newHead h1 (direction (snake1 gs)) = position (food gs) ->
    newHead h2 (direction (snake2 gs)) = position (food gs) ->
    position (next_food w) <> position (food gs) ->
    moveSnakes gs w = Some (gs1, w1) ->
    (score (snake1 gs1) - score (snake1 gs))
      + (score (snake2 gs1) - score (snake2 gs)) <= 1 /\
    random_used w1 = (2 + random_used w)%nat.

(** A disconnect that removes the occupant from its room: whatever room
    the socket plays in, that room, if it is still registered, no longer
    lists the socket. *)
Definition disconnect_removes_occupant (socket : string) (sv : Server)
  : Prop :=
  forall earlier roomId room later before after room',
    plays_in socket sv earlier roomId room later before after ->
    In (roomId, room') (rooms (fst (on_disconnect socket sv))) ->
    ~ In socket (players room').

(** A step that reports whether it advanced: [false] behind the gate and the
    state untouched, [true] otherwise and [lastUpdate] set. *)
Definition step_reports_advance (gs : GameState) (w : World) : Prop :=
  forall r gs' w',
    update gs w = Some ((r, gs'), w') ->
    if too_early (now_of w) (lastUpdate gs)
    then r = js_bool false /\ gs' = gs
    else r = js_bool true /\ lastUpdate gs' = now_of w.

(** ** Reachable game states *)

(** The game states a room can hold: built by the constructor, then changed
    by [update], by [resetGame] and by the assignment of a direction. *)
Inductive reachable : GameState -> Prop :=
| reach_init w gs w' :
    initializeGameState w = Some (gs, w') -> reachable gs
| reach_update gs w r gs' w' :
    reachable gs -> update gs w = Some ((r, gs'), w') -> reachable gs'
| reach_reset gs w gs' w' :
    reachable gs -> resetGame gs w = Some (gs', w') -> reachable gs'
| reach_direction gs r d :
    reachable gs ->
    reachable (set_snake r (set_direction (get_snake r gs) d) gs).

(** ** Sample worlds, states and servers *)

Module Demo.
(** [Math.random()] answers 0, 1/2, 0, 1/2, ...; [Date.now()] answers 0,
    100, 200, ... *)
Definition random (n : nat) : Binary64.t :=
  if Nat.even n then Binary64.mk 0 (-53) else Binary64.mk (2 ^ 52) (-53).
Definition clock (n : nat) : Z := 100 * Z.of_nat n.
Definition uuid (n : nat) : string :=
  match n with O => "room-a" | _ => "room-b" end.

Definition world : World := mkWorld random 0 clock 0 uuid 0.

Definition cell (a b : Z) : Position.t := {| Position.x := a; Position.y := b |}.

Definition snake (ps : list Position.t) (d : Direction.t) (n : Z) : Snake :=
  {| positions := ps; direction := d; color := COLORS.GREEN; score := n;
     speed := GAME_SPEED |}.

(** The state of a new room. *)
Definition start : GameState := fresh_state world.

(** Both snakes one step away from the food, from either side. *)
Definition facing : GameState :=
  {| snake1 := snake [cell 180 300] Direction.RIGHT 3;
     snake2 := snake [cell 220 300] Direction.LEFT 5;
     food := {| position := cell 200 300; food_color := COLORS.RED |};
     lastUpdate := -1000 |}.

(** Snake 1 is about to run into its own body; snake 2 is far away. *)
Definition coiled : GameState :=
  {| snake1 := snake [cell 100 100; cell 100 120; cell 120 120;
                      cell 120 100; cell 140 100] Direction.RIGHT 4;
     snake2 := snake [cell 600 300] Direction.LEFT 2;
     food := {| position := cell 0 0; food_color := COLORS.RED |};
     lastUpdate := -1000 |}.
End Demo.

Module Lobby.
Definition empty : Server := {| rooms := []; next_timer := 0 |}.

(** "alice" has created a room. *)
Definition waiting : Server :=
  match on_createRoom "alice" empty Demo.world with
  | Some ((sv, _), _) => sv
  | None => empty
  end.

(** "bob" has joined it: the game runs. *)
Definition playing : Server := fst (on_joinRoom "bob" "room-a" waiting).

Definition room_a : GameRoom :=
  {| id := "room-a"; players := ["alice"%string; "bob"%string];
     gameState := Demo.start; gameLoop := Some (Interval 0) |}.

(** "alice" has created a room and joined it herself: she is listed twice
    and the game runs. *)
Definition alone : Server := fst (on_joinRoom "alice" "room-a" waiting).
End Lobby.

(** * Properties *)

(** ** Cells *)

Lemma position_eqb_spec (a b : Position.t) : reflect (a = b) (Position.eqb a b).
Proof.
  destruct a as [ax ay], b as [bx by_]; unfold Position.eqb; simpl.
  destruct (Z.eqb_spec ax bx) as [-> | Hx]; simpl.
  - destruct (Z.eqb_spec ay by_) as [-> | Hy]; constructor; congruence.
  - constructor; congruence.
Qed.

Lemma position_eqb_eq (a b : Position.t) : Position.eqb a b = true <-> a = b.
Proof. destruct (position_eqb_spec a b); split; congruence. Qed.

Lemma position_eqb_refl (a : Position.t) : Position.eqb a a = true.
Proof. now apply position_eqb_eq. Qed.

(** ** The random source *)

Lemma generateFood_eq (w : World) :
  generateFood w = Some (next_food w, draw 2 w).
Proof. reflexivity. Qed.

(** ** Grid and geometry *)

(** Replace the constants of the game by their values. *)
Ltac constants :=
  cbv [CANVAS_WIDTH CANVAS_HEIGHT BLOCK_SIZE GAME_SPEED] in *.

Section Wrap.
Variables (n b : Z).
Hypothesis n_pos : 0 < n.
Hypothesis b_le_n : 0 <= b <= n.
Hypothesis b_divides_n : (b | n).

(** One axis of [newHead]: [(a + delta * b + n) % n] with [delta] one of
    -1, 0, 1. *)
Lemma wrap_axis a delta :
  0 <= a < n -> -1 <= delta <= 1 -> (b | a) ->
  0 <= Z.rem (a + delta * b + n) n < n /\ (b | Z.rem (a + delta * b + n) n).
Proof.
  intros Ha Hd Hdiv.
  assert (Hnn : 0 <= a + delta * b + n) by nia.
  rewrite Z.rem_mod_nonneg by lia.
  split; [ apply Z.mod_pos_bound; lia | ].
  rewrite Z.mod_eq by lia.
  apply Z.divide_sub_r.
  - repeat apply Z.divide_add_r; auto. apply Z.divide_mul_r, Z.divide_refl.
  - now apply Z.divide_mul_l.
Qed.
End Wrap.

Lemma valid_components d :
  Direction.valid d ->
  -1 <= Direction.x d <= 1 /\ -1 <= Direction.y d <= 1.
Proof. destruct 1; simpl; lia. Qed.

Lemma newHead_on_grid p d :
  on_grid p -> Direction.valid d -> on_grid (newHead p d).
Proof.
  intros (Hx & Hy & Dx & Dy) Hd.
  destruct (valid_components d Hd) as [Bx By].
  assert (Hw : (BLOCK_SIZE | CANVAS_WIDTH)) by (exists 40; reflexivity).
  assert (Hh : (BLOCK_SIZE | CANVAS_HEIGHT)) by (exists 30; reflexivity).
  destruct (wrap_axis CANVAS_WIDTH BLOCK_SIZE) with (a := Position.x p)
    (delta := Direction.x d) as [? ?]; try (unfold CANVAS_WIDTH, BLOCK_SIZE; lia); auto.
  destruct (wrap_axis CANVAS_HEIGHT BLOCK_SIZE) with (a := Position.y p)
    (delta := Direction.y d) as [? ?]; try (unfold CANVAS_HEIGHT, BLOCK_SIZE; lia); auto.
  unfold on_grid, newHead; simpl. tauto.
Qed.

(** *** Rounding *)

Lemma pow2_double s : 1 <= s -> 2 ^ s = 2 * 2 ^ (s - 1).
Proof.
  intros Hs. replace s with (Z.succ (s - 1)) at 1 by lia.
  apply Z.pow_succ_r. lia.
Qed.

(** Rounding a quotient by a power of two goes up by half a unit at most. *)
Lemma shift_round_bounds M s :
  0 <= M -> 1 <= s ->
  0 <= Binary64.shift_round M s /\
  Binary64.shift_round M s * 2 ^ s <= M + 2 ^ (s - 1).
Proof.
  intros HM Hs. unfold Binary64.shift_round.
  assert (P : 0 < 2 ^ s) by (apply Z.pow_pos_nonneg; lia).
  pose proof (pow2_double s Hs) as E.
  pose proof (Z.div_mod M (2 ^ s) ltac:(lia)) as D.
  pose proof (Z.mod_pos_bound M (2 ^ s) P) as B.
  assert (Q0 : 0 <= M / 2 ^ s) by (apply Z.div_pos; lia).
  rewrite (Z.mul_comm (2 ^ s)) in D.
  set (q := M / 2 ^ s) in *. set (r := M mod 2 ^ s) in *.
  set (h := 2 ^ (s - 1)) in *. set (p := 2 ^ s) in *.
  cbv zeta.
  destruct (Z.ltb_spec r h); [ lia | ].
  destruct (Z.ltb_spec h r); [ lia | ].
  destruct (Z.even q); lia.
Qed.

(** A bound on [Math.floor] from a bound on the number, both scaled by a
    power of two that makes them integers. *)
Lemma floor_bound q x N k :
  0 <= q -> 0 <= k -> 0 <= x + k ->
  q * 2 ^ (x + k) < N * 2 ^ k ->
  0 <= Binary64.floor (Binary64.mk q x) < N.
Proof.
  intros Hq Hk Hxk H.
  unfold Binary64.floor; cbn [Binary64.mantissa Binary64.exponent].
  assert (Pk : 0 < 2 ^ k) by (apply Z.pow_pos_nonneg; lia).
  destruct (Z.leb_spec 0 x) as [Hx | Hx].
  - assert (E : 2 ^ (x + k) = 2 ^ x * 2 ^ k) by (apply Z.pow_add_r; lia).
    assert (Px : 0 < 2 ^ x) by (apply Z.pow_pos_nonneg; lia).
    rewrite E in H. split; nia.
  - assert (E : 2 ^ k = 2 ^ (- x) * 2 ^ (x + k)).
    { rewrite <- Z.pow_add_r by lia. f_equal. lia. }
    assert (Px : 0 < 2 ^ (- x)) by (apply Z.pow_pos_nonneg; lia).
    assert (Pxk : 0 < 2 ^ (x + k)) by (apply Z.pow_pos_nonneg; lia).
    rewrite E in H.
    split; [ apply Z.div_pos; lia | ].
    apply Z.div_lt_upper_bound; [ lia | ]. nia.
Qed.

(** [Math.floor(Math.random() * N)] is one of 0, ..., N - 1, also after the
    product has been rounded: the largest binary64 number below 1 is
    [1 - 2^-53], the product with [N] is then at least [N * 2^-53] below
    [N], and that is more than half a unit in the last place of the
    product. *)
Lemma floor_random_times r N :
  Binary64.unit_interval r -> 0 < N ->
  0 <= Binary64.floor (Binary64.mul r (Binary64.of_Z N)) < N.
Proof.
  intros [[Hm0 Hm] [He0 He]] HN.
  unfold Binary64.mul, Binary64.of_Z; cbn [Binary64.mantissa Binary64.exponent].
  rewrite Z.add_0_r.
  set (m := Binary64.mantissa r) in *. set (e := Binary64.exponent r) in *.
  assert (HM : 0 <= m * N) by nia.
  rewrite (Z.abs_eq _ HM).
  assert (P53 : 0 < 2 ^ 53) by reflexivity.
  assert (Pe : 2 ^ 53 <= 2 ^ (- e)) by (apply Z.pow_le_mono_r; lia).
  destruct (Z.eq_dec (m * N) 0) as [Z0 | NZ].
  - rewrite Z0. cbn [Z.sgn Z.mul]. unfold Binary64.round.
    destruct (_ <=? 0); [ | destruct (_ =? _) ];
      cbn [Binary64.mantissa Binary64.exponent];
      unfold Binary64.floor; cbn [Binary64.mantissa Binary64.exponent];
      destruct (0 <=? _); rewrite ?Z.mul_0_l, ?Zdiv_0_l; lia.
  - assert (Pos : 0 < m * N) by lia.
    rewrite (Z.sgn_pos _ Pos), Z.mul_1_l.
    unfold Binary64.round.
    pose proof (Z.log2_spec (m * N) Pos) as [L1 L2].
    set (L := Z.log2 (m * N)) in *.
    destruct (Z.leb_spec (Z.max (L - 52) (-1074 - e)) 0) as [S0 | S1].
    + (* the product is exact *)
      cbn [Binary64.mantissa Binary64.exponent].
      apply (floor_bound (m * N) e N (- e)); try lia.
      replace (e + - e) with 0 by lia. rewrite Z.pow_0_r. nia.
    + (* the product is rounded *)
      assert (Hs : Z.max (L - 52) (-1074 - e) = L - 52) by lia.
      rewrite Hs in *. set (s := L - 52) in *.
      assert (Hs1 : 1 <= s) by lia.
      destruct (shift_round_bounds (m * N) s HM Hs1) as [Q0 Q1].
      set (q := Binary64.shift_round (m * N) s) in *. cbv zeta.
      assert (PL : 2 ^ L = 2 ^ (s - 1) * 2 ^ 53).
      { rewrite <- Z.pow_add_r by lia. f_equal. lia. }
      assert (Ps1 : 0 < 2 ^ (s - 1)) by (apply Z.pow_pos_nonneg; lia).
      assert (Ps : 0 < 2 ^ s) by (apply Z.pow_pos_nonneg; lia).
      assert (HsN : 2 ^ (s - 1) < N) by nia.
      assert (Q2 : q * 2 ^ s < N * 2 ^ (- e)) by nia.
      destruct (Z.eqb_spec q (2 ^ 53)) as [Hc | Hc];
        cbn [Binary64.mantissa Binary64.exponent].
      * (* the rounding carries *)
        apply (floor_bound (2 ^ 52) (e + s + 1) N (- e)); try lia.
        replace (e + s + 1 + - e) with (Z.succ s) by lia.
        rewrite Z.pow_succ_r by lia. rewrite Hc in Q2.
        change (2 ^ 53) with (2 ^ 52 * 2) in Q2. lia.
      * apply (floor_bound q (e + s) N (- e)); try lia.
        now replace (e + s + - e) with s by lia.
Qed.

(** [Math.floor(r * (size / block)) * block] for [r] in [[0, 1)]. *)
Lemma floor_scaled (r : Binary64.t) (size : Z) :
  Binary64.unit_interval r -> 0 < size -> (BLOCK_SIZE | size) ->
  0 <= Binary64.floor (Binary64.mul r (Binary64.of_Z (size / BLOCK_SIZE)))
       * BLOCK_SIZE < size.
Proof.
  intros Hr Hs [k Hk].
  assert (E : size / BLOCK_SIZE = k).
  { subst size. apply Z.div_mul. discriminate. }
  rewrite E.
  assert (Hk0 : 0 < k) by (unfold BLOCK_SIZE in *; lia).
  pose proof (floor_random_times r k Hr Hk0).
  unfold BLOCK_SIZE in *; lia.
Qed.

Lemma food_of_on_grid r1 r2 :
  Binary64.unit_interval r1 -> Binary64.unit_interval r2 ->
  on_grid (position (food_of r1 r2)).
Proof.
  intros A1 A2. unfold on_grid, food_of; cbn [position Position.x Position.y].
  pose proof (floor_scaled r1 CANVAS_WIDTH A1) as Hx.
  pose proof (floor_scaled r2 CANVAS_HEIGHT A2) as Hy.
  repeat split.
  - apply Hx; [ reflexivity | exists 40; reflexivity ].
  - apply Hx; [ reflexivity | exists 40; reflexivity ].
  - apply Hy; [ reflexivity | exists 30; reflexivity ].
  - apply Hy; [ reflexivity | exists 30; reflexivity ].
  - apply Z.divide_mul_r, Z.divide_refl.
  - apply Z.divide_mul_r, Z.divide_refl.
Qed.

Lemma next_food_on_grid w : random_ok w -> on_grid (position (next_food w)).
Proof.
  intros H. unfold next_food.
  apply food_of_on_grid; apply H.
Qed.

(** The rounding matters: 0.7 is the binary64 number 6305039478318694 / 2^53,
    just below 7/10; its product with 40 is rounded up to 28, so the food
    lands on x = 560 and not on 540.  The largest number below 1 gives the
    last column and the last row. *)
Example food_at_seven_tenths :
  Position.x (position (food_of (Binary64.mk 6305039478318694 (-53))
                                (Binary64.mk 6305039478318694 (-53)))) = 560.
Proof. reflexivity. Qed.

Example food_at_the_far_corner :
  position (food_of (Binary64.mk (2 ^ 53 - 1) (-53))
                    (Binary64.mk (2 ^ 53 - 1) (-53)))
  = {| Position.x := 780; Position.y := 580 |}.
Proof. reflexivity. Qed.

(** [Binary64.mul] against the multiplication of the Standard Library's
    IEEE 754 model, on these and other numbers. *)
Example mul_agrees_with_SFmul :
  Forall (fun ab =>
            SFmul 53 1024 (Binary64.to_spec (fst ab)) (Binary64.to_spec (snd ab))
            = Binary64.to_spec (Binary64.mul (fst ab) (snd ab)))
    [ (Binary64.mk 6305039478318694 (-53), Binary64.of_Z 40);
      (Binary64.mk 6305039478318694 (-53), Binary64.of_Z 30);
      (Binary64.mk (2 ^ 53 - 1) (-53), Binary64.of_Z 40);
      (Binary64.mk (2 ^ 53 - 1) (-53), Binary64.of_Z 30);
      (Binary64.mk (2 ^ 53 - 1) (-53), Binary64.mk (2 ^ 53 - 1) (-53));
      (Binary64.mk 7205759403792794 (-56), Binary64.of_Z 30);
      (Binary64.mk 6004799503160661 (-54), Binary64.of_Z 3);
      (Binary64.mk 1 (-53), Binary64.of_Z 40);
      (Binary64.mk (2 ^ 52) (-53), Binary64.of_Z 30);
      (Binary64.mk 0 (-53), Binary64.of_Z 40);
      (Binary64.mk 1 (-1074), Binary64.of_Z 30);
      (Binary64.mk 1 (-1074), Binary64.mk (2 ^ 52) (-53));
      (Binary64.mk 3 (-1074), Binary64.mk (2 ^ 52) (-53));
      (Binary64.mk 5 (-1074), Binary64.mk (2 ^ 52) (-53)) ].
Proof. repeat constructor. Qed.

(** ** One snake's move *)

Lemma has_head_inv s : has_head s -> exists h body, positions s = h :: body.
Proof.
  unfold has_head; destruct (positions s) as [| h body]; [ congruence | ].
  intros _; now exists h, body.
Qed.

Lemma moveSnake_run food0 r gs w :
  has_head (get_snake r gs) ->
  moveSnake food0 r gs w =
  if eats food0 (get_snake r gs)
  then Some (set_food (set_snake r (moved food0 (get_snake r gs)) gs)
                      (next_food w), draw 2 w)
  else Some (set_snake r (moved food0 (get_snake r gs)) gs, w).
Proof.
  intros H; destruct (has_head_inv _ H) as (h & body & E).
  unfold moveSnake, moved, eats; rewrite E.
  change (nth_error (h :: body) 0) with (Some h); cbv beta iota zeta.
  destruct (Position.eqb (newHead h (direction (get_snake r gs)))
                         (position food0)); reflexivity.
Qed.

Lemma moveSnake_throws food0 r gs w :
  positions (get_snake r gs) = [] -> moveSnake food0 r gs w = None.
Proof. unfold moveSnake; now intros ->. Qed.

Lemma length_removelast_cons {A : Type} (a : A) (l : list A) :
  List.length (removelast (a :: l)) = List.length l.
Proof.
  revert a; induction l as [| b l IH]; intros a; [ reflexivity | ].
  change (removelast (a :: b :: l)) with (a :: removelast (b :: l)).
  change (S (List.length (removelast (b :: l))) = S (List.length l)).
  now rewrite IH.
Qed.

Lemma moved_has_head food0 s : has_head s -> has_head (moved food0 s).
Proof.
  intros H; destruct (has_head_inv _ H) as (h & body & E).
  unfold has_head, moved; rewrite E.
  destruct (eats food0 s); simpl; [ congruence | ].
  destruct body; simpl; congruence.
Qed.

Lemma get_set_same r s gs : get_snake r (set_snake r s gs) = s.
Proof. now destruct r. Qed.

Lemma moved_step_effect food0 s :
  has_head s -> step_effect food0 s (moved food0 s).
Proof.
  intros H; destruct (has_head_inv _ H) as (h & body & E).
  exists h, body; split; [ exact E | ].
  unfold moved, eats; rewrite E; cbv zeta.
  destruct (position_eqb_spec (newHead h (direction s)) (position food0))
    as [Heq | Hne]; split; intros Hc; try contradiction;
    cbn [positions score].
  - auto.
  - change (removelast (newHead h (direction s) :: h :: body))
      with (newHead h (direction s) :: removelast (h :: body)).
    repeat split.
    change (S (List.length (removelast (h :: body))) = S (List.length body)).
    now rewrite length_removelast_cons.
Qed.

(** ** The loop over both snakes *)

Lemma moveSnakes_run gs w :
  nonempty gs -> moveSnakes gs w = Some (after_moves gs w).
Proof.
  intros [H1 H2]. unfold moveSnakes, after_moves, bind.
  rewrite (moveSnake_run (food gs) Snake1 gs w H1).
  change (get_snake Snake1 gs) with (snake1 gs).
  destruct (eats (food gs) (snake1 gs));
    (rewrite moveSnake_run by exact H2);
    cbn [get_snake set_snake set_food snake1 snake2 food lastUpdate];
    destruct (eats (food gs) (snake2 gs)); reflexivity.
Qed.

(** ** Collision check *)

Lemma some_same_cell h l :
  some (same_cell (Some h)) l = Some (existsb (fun pos => Position.eqb pos h) l).
Proof.
  induction l as [| a l IH]; [ reflexivity | ].
  simpl. destruct (Position.eqb a h); [ reflexivity | exact IH ].
Qed.

Lemma existsb_cell h l :
  existsb (fun pos => Position.eqb pos h) l = true <-> In h l.
Proof.
  rewrite existsb_exists; split.
  - intros (p & Hin & Heq). apply position_eqb_eq in Heq. now subst.
  - intros Hin. exists h; split; [ exact Hin | apply position_eqb_refl ].
Qed.

Lemma checkCollision_run gs :
  nonempty gs -> checkCollision gs = Some (collides gs).
Proof.
  intros [H1 H2].
  destruct (has_head_inv _ H1) as (h1 & r1 & E1).
  destruct (has_head_inv _ H2) as (h2 & r2 & E2).
  unfold checkCollision, checkSelfCollision, checkSnakeCollision, collides.
  rewrite E1, E2.
  change (nth_error (h1 :: r1) 0) with (Some h1).
  change (nth_error (h2 :: r2) 0) with (Some h2).
  change (tl (h1 :: r1)) with r1. change (tl (h2 :: r2)) with r2.
  rewrite !some_same_cell. unfold orelse.
  destruct (existsb (fun pos => Position.eqb pos h1) r1); [ reflexivity | ].
  destruct (existsb (fun pos => Position.eqb pos h2) r2); [ reflexivity | ].
  destruct (existsb (fun pos => Position.eqb pos h1) (h2 :: r2));
    reflexivity.
Qed.

Lemma collides_terminated gs :
  nonempty gs -> (collides gs = true <-> terminated gs).
Proof.
  intros [H1 H2].
  destruct (has_head_inv _ H1) as (h1 & r1 & E1).
  destruct (has_head_inv _ H2) as (h2 & r2 & E2).
  unfold collides, terminated, mutual_collision, self_collision, head_hits.
  rewrite E1, E2, !orb_true_iff, !existsb_cell.
  split.
  - intros [H | [H | [H | H]]].
    + left. now exists h1, r1.
    + right; left. now exists h2, r2.
    + right; right; left. now exists h1, r1.
    + right; right; right. now exists h2, r2.
  - intros [(h & r & E & H) | [(h & r & E & H) | [(h & r & E & H)
                                                 | (h & r & E & H)]]];
      injection E as <- <-; tauto.
Qed.

(** Two heads on one cell. *)
Lemma same_head_collides gs h r1 r2 :
  positions (snake1 gs) = h :: r1 -> positions (snake2 gs) = h :: r2 ->
  collides gs = true.
Proof.
  intros E1 E2. unfold collides. rewrite E1, E2.
  cbn [existsb]. rewrite position_eqb_refl. cbn [orb].
  now rewrite !orb_true_r.
Qed.

(** ** The step behind the rate gate *)

Lemma initializeGameState_run w :
  initializeGameState w = Some (fresh_state w, tick_clock (draw 2 w)).
Proof. reflexivity. Qed.

Lemma after_moves_nonempty gs w : nonempty gs -> nonempty (fst (after_moves gs w)).
Proof.
  intros [H1 H2]. unfold after_moves.
  pose proof (moved_has_head (food gs) _ H1).
  pose proof (moved_has_head (food gs) _ H2).
  destruct (eats (food gs) (snake1 gs)), (eats (food gs) (snake2 gs));
    split; assumption.
Qed.

Lemma advance_run now gs w :
  nonempty gs -> advance now gs w = Some (advanced now gs w).
Proof.
  intros H. unfold advance, advanced, bind.
  rewrite (moveSnakes_run gs w H).
  pose proof (after_moves_nonempty gs w H) as H1.
  destruct (after_moves gs w) as [gs1 w1]; simpl fst in H1.
  unfold lift. rewrite (checkCollision_run gs1 H1).
  destruct (collides gs1); reflexivity.
Qed.

Lemma update_run gs w :
  nonempty gs ->
  update gs w =
  if too_early (now_of w) (lastUpdate gs)
  then Some ((js_undefined, gs), tick_clock w)
  else Some ((js_undefined, fst (advanced (now_of w) gs (tick_clock w))),
             snd (advanced (now_of w) gs (tick_clock w))).
Proof.
  intros H. unfold update, bind.
  change (Date_now w) with (Some (now_of w, tick_clock w)).
  cbv beta iota.
  destruct (too_early (now_of w) (lastUpdate gs)); [ reflexivity | ].
  rewrite (advance_run _ gs (tick_clock w) H).
  now destruct (advanced (now_of w) gs (tick_clock w)).
Qed.

Lemma advanced_nonempty now gs w :
  nonempty gs -> nonempty (fst (advanced now gs w)).
Proof.
  intros H. unfold advanced.
  pose proof (after_moves_nonempty gs w H) as H1.
  destruct (after_moves gs w) as [gs1 w1]; simpl fst in H1.
  destruct (collides gs1); simpl.
  - split; unfold has_head; simpl; discriminate.
  - exact H1.
Qed.

(** The rate gate on integer timestamps. *)
Lemma too_early_iff now last :
  too_early now last = true <-> (now - last) * GAME_SPEED < 1000.
Proof.
  unfold too_early, Qle_bool, GAME_SPEED. simpl.
  rewrite negb_true_iff, Z.leb_gt. lia.
Qed.

Lemma moveSnakes_Some_nonempty gs w r :
  moveSnakes gs w = Some r -> nonempty gs.
Proof.
  unfold moveSnakes, bind, nonempty, has_head. intros H.
  destruct (positions (snake1 gs)) eqn:E1.
  { rewrite (moveSnake_throws (food gs) Snake1 gs w E1) in H. discriminate. }
  split; [ discriminate | ].
  destruct (moveSnake (food gs) Snake1 gs w) as [[gs1 w1] |] eqn:M;
    [ | discriminate ].
  assert (Hs : snake2 gs1 = snake2 gs).
  { rewrite moveSnake_run in M by (unfold has_head; simpl; congruence).
    destruct (eats (food gs) (get_snake Snake1 gs));
      injection M as <- _; reflexivity. }
  intros E2. rewrite moveSnake_throws in H; [ discriminate | ].
  simpl. now rewrite Hs.
Qed.

Lemma advance_Some_nonempty now gs w r :
  advance now gs w = Some r -> nonempty gs.
Proof.
  unfold advance, bind. intros H.
  destruct (moveSnakes gs w) as [[gs1 w1] |] eqn:M; [ | discriminate ].
  eapply moveSnakes_Some_nonempty; eassumption.
Qed.

Lemma after_moves_effect gs w r :
  nonempty gs ->
  step_effect (food gs) (get_snake r gs) (get_snake r (fst (after_moves gs w))).
Proof.
  intros [H1 H2]. unfold after_moves.
  destruct (eats (food gs) (snake1 gs)), (eats (food gs) (snake2 gs));
    destruct r; simpl; now apply moved_step_effect.
Qed.

(** ** A first step, run *)

Lemma demo_world_ok : random_ok Demo.world.
Proof.
  intros n; unfold Demo.world, Demo.random; cbn [random_tape].
  destruct (Nat.even n); unfold Binary64.unit_interval;
    cbn [Binary64.mantissa Binary64.exponent]; lia.
Qed.

Example start_scenario :
  update Demo.start (tick_clock (draw 2 Demo.world)) =
  Some ((js_undefined,
         {| snake1 := Demo.snake [Demo.cell 220 300] Direction.RIGHT 0;
            snake2 := set_positions initial_snake2 [Demo.cell 580 300];
            food := {| position := Demo.cell 0 300; food_color := COLORS.RED |};
            lastUpdate := 100 |}),
        tick_clock (tick_clock (draw 2 Demo.world))).
Proof. reflexivity. Qed.

(** ** The claims about the simulation step *)

(** C4 (length invariant).  In every advanced step the loop runs the callback
    on both snakes; for each of them, if the new head is not the food cell
    the check reads, the body is the new head followed by the old body
    without its last cell, so its length and the score are unchanged; if it
    is that cell, the body grows by exactly one cell and the score by exactly
    one.  When no collision is detected, these are the snakes of the state
    the step leaves. *)
Theorem length_invariant now gs w gs' w' :
  advance now gs w = Some (gs', w') ->
  exists gs1 w1,
    moveSnakes gs w = Some (gs1, w1) /\
    (forall r, step_effect (food gs) (get_snake r gs) (get_snake r gs1)) /\
    (checkCollision gs1 = Some false ->
     forall r, get_snake r gs' = get_snake r gs1).
Proof.
  intros H. pose proof (advance_Some_nonempty _ _ _ _ H) as Hne.
  rewrite (advance_run now gs w Hne) in H. unfold advanced in H.
  pose proof (moveSnakes_run gs w Hne) as M.
  pose proof (fun r => after_moves_effect gs w r Hne) as Eff.
  pose proof (after_moves_nonempty gs w Hne) as Hne1.
  destruct (after_moves gs w) as [gs1 w1]; simpl fst in *.
  exists gs1, w1; split; [ exact M | split; [ exact Eff | ] ].
  rewrite (checkCollision_run gs1 Hne1). intros C; injection C as C.
  rewrite C in H. injection H as <- _. now intros [].
Qed.

Lemma length_invariant_witness :
  exists gs1 w1,
    moveSnakes Demo.start Demo.world = Some (gs1, w1) /\
    (forall r, step_effect (food Demo.start) (get_snake r Demo.start)
                           (get_snake r gs1)) /\
    (checkCollision gs1 = Some false ->
     forall r, get_snake r (fst (advanced 7 Demo.start Demo.world))
               = get_snake r gs1).
Proof.
  apply (length_invariant 7 Demo.start Demo.world
           (fst (advanced 7 Demo.start Demo.world))
           (snd (advanced 7 Demo.start Demo.world))).
  reflexivity.
Defined.

(** C5 (wrap invariant).  From a grid cell and one of the four directions,
    the new head is again a grid cell: both coordinates in range and
    multiples of the block size; each is the stored coordinate plus the
    (possibly negative) delta, modulo the axis size.  The food that
    [generateFood] builds is a grid cell too. *)
Theorem wrap_invariant p d w :
  on_grid p -> Direction.valid d -> random_ok w ->
  on_grid (newHead p d) /\
  Position.x (newHead p d)
    = (Position.x p + Direction.x d * BLOCK_SIZE) mod CANVAS_WIDTH /\
  Position.y (newHead p d)
    = (Position.y p + Direction.y d * BLOCK_SIZE) mod CANVAS_HEIGHT /\
  exists f, generateFood w = Some (f, draw 2 w) /\ on_grid (position f).
Proof.
  intros Hp Hd Hw.
  split; [ now apply newHead_on_grid | ].
  destruct Hp as (Hx & Hy & _ & _).
  destruct (valid_components d Hd) as [Bx By].
  unfold newHead; cbn [Position.x Position.y].
  repeat split.
  - rewrite Z.rem_mod_nonneg by (constants; lia).
    now rewrite <- (Z_mod_plus_full (Position.x p + Direction.x d * BLOCK_SIZE)
                                     1 CANVAS_WIDTH), Z.mul_1_l.
  - rewrite Z.rem_mod_nonneg by (constants; lia).
    now rewrite <- (Z_mod_plus_full (Position.y p + Direction.y d * BLOCK_SIZE)
                                     1 CANVAS_HEIGHT), Z.mul_1_l.
  - exists (next_food w); split; [ reflexivity | now apply next_food_on_grid ].
Qed.

Lemma wrap_invariant_witness :
  on_grid (newHead (Demo.cell 0 580) Direction.LEFT) /\
  Position.x (newHead (Demo.cell 0 580) Direction.LEFT)
    = (0 + -1 * BLOCK_SIZE) mod CANVAS_WIDTH /\
  Position.y (newHead (Demo.cell 0 580) Direction.LEFT)
    = (580 + 0 * BLOCK_SIZE) mod CANVAS_HEIGHT /\
  exists f, generateFood Demo.world = Some (f, draw 2 Demo.world)
            /\ on_grid (position f).
Proof.
  apply (wrap_invariant (Demo.cell 0 580) Direction.LEFT Demo.world).
  - unfold on_grid, CANVAS_WIDTH, CANVAS_HEIGHT, BLOCK_SIZE; simpl.
    repeat split; try lia; [ exists 0 | exists 29 ]; reflexivity.
  - constructor.
  - exact demo_world_ok.
Defined.

(** C2 (termination check).  On snakes that have a head, [checkCollision]
    answers, and answers [true] exactly when snake 1 collides with itself, or
    snake 2 does, or the head of either lies on a cell of the other's full
    body. *)
Theorem termination_check gs :
  nonempty gs ->
  exists b, checkCollision gs = Some b /\ (b = true <-> terminated gs).
Proof.
  intros H. exists (collides gs); split.
  - now apply checkCollision_run.
  - now apply collides_terminated.
Qed.

Lemma termination_check_witness :
  exists b, checkCollision Demo.facing = Some b
            /\ (b = true <-> terminated Demo.facing).
Proof.
  apply (termination_check Demo.facing).
  split; unfold has_head; simpl; discriminate.
Defined.

(** Two heads on one cell are a mutual collision. *)
Example head_to_head_terminates :
  checkCollision (fst (after_moves Demo.facing Demo.world)) = Some true.
Proof. reflexivity. Qed.

(** C3 (reset on collision).  When the step advances and the check on the
    moved snakes detects a collision, the state the step leaves is a new
    one: snake 1 is the single cell (200, 300) facing right, snake 2 the
    single cell (600, 300) facing left, both scores are 0, the food is newly
    generated, and [lastUpdate] is the time of the step. *)
Theorem collision_resets gs w gs1 w1 :
  too_early (now_of w) (lastUpdate gs) = false ->
  moveSnakes gs (tick_clock w) = Some (gs1, w1) ->
  checkCollision gs1 = Some true ->
  exists gs',
    update gs w = Some ((js_undefined, gs'), tick_clock (draw 2 w1)) /\
    snake1 gs' = initial_snake1 /\ snake2 gs' = initial_snake2 /\
    positions (snake1 gs') =
      [ {| Position.x := 200; Position.y := 300 |} ] /\
    direction (snake1 gs') = Direction.RIGHT /\ score (snake1 gs') = 0 /\
    positions (snake2 gs') =
      [ {| Position.x := 600; Position.y := 300 |} ] /\
    direction (snake2 gs') = Direction.LEFT /\ score (snake2 gs') = 0 /\
    food gs' = next_food w1 /\
    lastUpdate gs' = now_of w.
Proof.
  intros Hgate M C.
  pose proof (moveSnakes_Some_nonempty _ _ _ M) as Hne.
  exists (set_lastUpdate (fresh_state w1) (now_of w)).
  split; [ | repeat split ].
  rewrite (update_run gs w Hne), Hgate. unfold advanced.
  rewrite (moveSnakes_run _ _ Hne) in M. injection M as M.
  pose proof (after_moves_nonempty gs (tick_clock w) Hne) as Hne1.
  rewrite M in *. simpl fst in Hne1.
  rewrite (checkCollision_run gs1 Hne1) in C. injection C as ->.
  reflexivity.
Qed.

Lemma collision_resets_witness :
  exists gs',
    update Demo.coiled Demo.world =
      Some ((js_undefined, gs'), tick_clock (draw 2 (tick_clock Demo.world))) /\
    snake1 gs' = initial_snake1 /\ snake2 gs' = initial_snake2 /\
    positions (snake1 gs') =
      [ {| Position.x := 200; Position.y := 300 |} ] /\
    direction (snake1 gs') = Direction.RIGHT /\ score (snake1 gs') = 0 /\
    positions (snake2 gs') =
      [ {| Position.x := 600; Position.y := 300 |} ] /\
    direction (snake2 gs') = Direction.LEFT /\ score (snake2 gs') = 0 /\
    food gs' = next_food (tick_clock Demo.world) /\
    lastUpdate gs' = now_of Demo.world.
Proof.
  apply (collision_resets Demo.coiled Demo.world
           (fst (after_moves Demo.coiled (tick_clock Demo.world)))
           (tick_clock Demo.world));
    reflexivity.
Defined.

(** ** Both snakes on the food cell *)

(** In [Demo.facing] both snakes step onto the food at (200, 300); the food
    generated for snake 1 is at (0, 300), and snake 2 eats all the same. *)
Example facing_after_loop :
  moveSnakes Demo.facing Demo.world =
  Some ({| snake1 := Demo.snake [Demo.cell 200 300; Demo.cell 180 300]
                                Direction.RIGHT 4;
           snake2 := Demo.snake [Demo.cell 200 300; Demo.cell 220 300]
                                Direction.LEFT 6;
           food := {| position := Demo.cell 0 300; food_color := COLORS.RED |};
           lastUpdate := -1000 |},
        draw 4 Demo.world).
Proof. reflexivity. Qed.

Lemma eating_not_exclusive : ~ eating_is_exclusive Demo.facing Demo.world.
Proof.
  intros H.
  assert (Hne : position (next_food Demo.world) <> position (food Demo.facing))
    by (intros E; vm_compute in E; discriminate E).
  destruct (H (Demo.cell 180 300) [] (Demo.cell 220 300) [] _ _
              eq_refl eq_refl eq_refl eq_refl Hne facing_after_loop)
    as [Hs Hr].
  vm_compute in Hs. now apply Hs.
Qed.

Lemma eats_head food0 s h body :
  positions s = h :: body -> newHead h (direction s) = position food0 ->
  eats food0 s = true.
Proof.
  intros E H. unfold eats. rewrite E, H. apply position_eqb_refl.
Qed.

(** C1, as the code has it.  Both eating checks read the food cell that the
    step saw when it started.  When both new heads are that cell, both snakes
    eat: each score grows by one, each body keeps its tail, and the food is
    generated twice, the second replacing the first.  The two heads then
    share a cell, the collision check answers [true], and the step leaves a
    new state. *)
Theorem both_snakes_eat now gs w h1 b1 h2 b2 :
  positions (snake1 gs) = h1 :: b1 ->
  positions (snake2 gs) = h2 :: b2 ->
  newHead h1 (direction (snake1 gs)) = position (food gs) ->
  newHead h2 (direction (snake2 gs)) = position (food gs) ->
  exists gs1,
    moveSnakes gs w = Some (gs1, draw 4 w) /\
    score (snake1 gs1) = score (snake1 gs) + 1 /\
    score (snake2 gs1) = score (snake2 gs) + 1 /\
    positions (snake1 gs1) = position (food gs) :: h1 :: b1 /\
    positions (snake2 gs1) = position (food gs) :: h2 :: b2 /\
    food gs1 = next_food (draw 2 w) /\
    checkCollision gs1 = Some true /\
    advance now gs w =
      Some (set_lastUpdate (fresh_state (draw 4 w)) now, tick_clock (draw 6 w)).
Proof.
  intros E1 E2 F1 F2.
  assert (Hne : nonempty gs) by (split; unfold has_head; congruence).
  pose proof (eats_head _ _ _ _ E1 F1) as A1.
  pose proof (eats_head _ _ _ _ E2 F2) as A2.
  pose proof (moveSnakes_run gs w Hne) as M.
  pose proof (advance_run now gs w Hne) as Adv.
  pose proof (after_moves_nonempty gs w Hne) as Hne1.
  unfold advanced in Adv. unfold after_moves in M, Adv, Hne1.
  rewrite A1, A2 in M, Adv, Hne1. simpl fst in Hne1.
  unfold moved in M, Adv, Hne1. rewrite E1, E2, A1, A2 in M, Adv, Hne1.
  cbv zeta in M, Adv, Hne1. rewrite F1, F2 in M, Adv, Hne1.
  match type of M with _ = Some (?g, _) => set (gs1 := g) in * end.
  assert (C : collides gs1 = true)
    by (apply (same_head_collides gs1 (position (food gs)) (h1 :: b1) (h2 :: b2));
        reflexivity).
  exists gs1. rewrite C in Adv.
  repeat split; try reflexivity; try assumption.
  rewrite (checkCollision_run gs1 Hne1). now rewrite C.
Qed.

Lemma both_snakes_eat_witness :
  exists gs1,
    moveSnakes Demo.facing Demo.world = Some (gs1, draw 4 Demo.world) /\
    score (snake1 gs1) = 3 + 1 /\
    score (snake2 gs1) = 5 + 1 /\
    positions (snake1 gs1) = Demo.cell 200 300 :: [Demo.cell 180 300] /\
    positions (snake2 gs1) = Demo.cell 200 300 :: [Demo.cell 220 300] /\
    food gs1 = next_food (draw 2 Demo.world) /\
    checkCollision gs1 = Some true /\
    advance 42 Demo.facing Demo.world =
      Some (set_lastUpdate (fresh_state (draw 4 Demo.world)) 42,
            tick_clock (draw 6 Demo.world)).
Proof.
  apply (both_snakes_eat 42 Demo.facing Demo.world
           (Demo.cell 180 300) [] (Demo.cell 220 300) []);
    reflexivity.
Defined.

(** ** The rate gate *)

Lemma too_early_Q now last :
  too_early now last = true <->
  (inject_Z (now - last) < inject_Z 1000 / inject_Z GAME_SPEED)%Q.
Proof.
  unfold too_early.
  destruct (Qle_bool (inject_Z 1000 / inject_Z GAME_SPEED)
                     (inject_Z (now - last))) eqn:E; simpl.
  - apply Qle_bool_iff in E. split; [ discriminate | ].
    intros H. exfalso. exact (Qlt_not_le _ _ H E).
  - split; [ intros _ | reflexivity ].
    apply Qnot_le_lt. intros H. apply Qle_bool_iff in H. congruence.
Qed.

(** [update] returns nothing, also when it advances. *)
Lemma update_reports_nothing :
  ~ step_reports_advance Demo.start (tick_clock (draw 2 Demo.world)).
Proof.
  intros H. specialize (H _ _ _ start_scenario).
  change (too_early (now_of (tick_clock (draw 2 Demo.world)))
                    (lastUpdate Demo.start)) with false in H.
  destruct H as [H _]. discriminate H.
Qed.

(** C7, as the code has it.  [update] completes with [undefined] in both
    cases.  When [now - lastUpdate < 1000 / GAME_SPEED] it leaves the state as
    it is; otherwise it runs the step (both snakes move, eating and collision
    are resolved) and sets [lastUpdate] to [now].  A second call that reads
    the clock less than [1000 / GAME_SPEED] ms after an advancing one changes
    nothing. *)
Theorem rate_limit gs w :
  nonempty gs ->
  exists gs' w',
    update gs w = Some ((js_undefined, gs'), w') /\
    ((inject_Z (now_of w - lastUpdate gs)
        < inject_Z 1000 / inject_Z GAME_SPEED)%Q ->
     gs' = gs /\ w' = tick_clock w) /\
    (~ (inject_Z (now_of w - lastUpdate gs)
          < inject_Z 1000 / inject_Z GAME_SPEED)%Q ->
     advance (now_of w) gs (tick_clock w) = Some (gs', w') /\
     lastUpdate gs' = now_of w /\
     ((inject_Z (now_of w' - now_of w)
         < inject_Z 1000 / inject_Z GAME_SPEED)%Q ->
      update gs' w' = Some ((js_undefined, gs'), tick_clock w'))).
Proof.
  intros Hne. rewrite (update_run gs w Hne).
  destruct (too_early (now_of w) (lastUpdate gs)) eqn:G.
  - exists gs, (tick_clock w). split; [ reflexivity | ]. split; [ auto | ].
    intros N. exfalso. apply N. now apply too_early_Q.
  - assert (N : ~ (inject_Z (now_of w - lastUpdate gs)
                     < inject_Z 1000 / inject_Z GAME_SPEED)%Q).
    { intros H. apply too_early_Q in H. congruence. }
    pose proof (advance_run (now_of w) gs (tick_clock w) Hne) as Adv.
    pose proof (advanced_nonempty (now_of w) gs (tick_clock w) Hne) as Hne'.
    assert (L : lastUpdate (fst (advanced (now_of w) gs (tick_clock w)))
                = now_of w).
    { unfold advanced. destruct (after_moves gs (tick_clock w)) as [gs1 w1].
      destruct (collides gs1); reflexivity. }
    destruct (advanced (now_of w) gs (tick_clock w)) as [gs' w'].
    simpl fst in *; simpl snd in *.
    exists gs', w'. split; [ reflexivity | ]. split; [ tauto | ].
    intros _. split; [ exact Adv | ]. split; [ exact L | ].
    intros H. rewrite (update_run gs' w' Hne'), L.
    apply too_early_Q in H. now rewrite H.
Qed.

Lemma rate_limit_witness :
  exists gs' w',
    update Demo.start (tick_clock (draw 2 Demo.world))
      = Some ((js_undefined, gs'), w') /\
    ((inject_Z (now_of (tick_clock (draw 2 Demo.world)) - lastUpdate Demo.start)
        < inject_Z 1000 / inject_Z GAME_SPEED)%Q ->
     gs' = Demo.start /\ w' = tick_clock (tick_clock (draw 2 Demo.world))) /\
    (~ (inject_Z (now_of (tick_clock (draw 2 Demo.world)) - lastUpdate Demo.start)
          < inject_Z 1000 / inject_Z GAME_SPEED)%Q ->
     advance (now_of (tick_clock (draw 2 Demo.world))) Demo.start
             (tick_clock (tick_clock (draw 2 Demo.world))) = Some (gs', w') /\
     lastUpdate gs' = now_of (tick_clock (draw 2 Demo.world)) /\
     ((inject_Z (now_of w' - now_of (tick_clock (draw 2 Demo.world)))
         < inject_Z 1000 / inject_Z GAME_SPEED)%Q ->
      update gs' w' = Some ((js_undefined, gs'), tick_clock w'))).
Proof.
  apply (rate_limit Demo.start (tick_clock (draw 2 Demo.world))).
  split; unfold has_head; simpl; discriminate.
Defined.

(** ** Snakes always have a head *)

Lemma fresh_state_nonempty w : nonempty (fresh_state w).
Proof. split; unfold has_head; simpl; discriminate. Qed.

Lemma reachable_nonempty gs : reachable gs -> nonempty gs.
Proof.
  induction 1 as [w gs w' Hi | gs w r gs' w' _ IH Hu | gs w gs' w' _ _ Hr
                 | gs r d _ IH].
  - rewrite initializeGameState_run in Hi. injection Hi as <- _.
    apply fresh_state_nonempty.
  - rewrite (update_run gs w IH) in Hu.
    destruct (too_early (now_of w) (lastUpdate gs)).
    + injection Hu as _ <- _. exact IH.
    + injection Hu as _ <- _. now apply advanced_nonempty.
  - unfold resetGame in Hr. rewrite initializeGameState_run in Hr.
    injection Hr as <- _. apply fresh_state_nonempty.
  - destruct IH as [H1 H2]. destruct r; split; assumption.
Qed.

(** C10 (non-empty bodies).  The constructor builds two one-cell snakes.
    In every state a room can reach, both bodies are non-empty, so the reads
    of [positions[0]] find a head: [update] and [checkCollision] complete
    without a [TypeError], and the states that [update] and [resetGame]
    leave have non-empty bodies again. *)
Theorem positions_nonempty :
  (forall w, exists gs w',
      initializeGameState w = Some (gs, w') /\
      List.length (positions (snake1 gs)) = 1%nat /\
      List.length (positions (snake2 gs)) = 1%nat) /\
  (forall gs, reachable gs ->
      (forall r, (1 <= List.length (positions (get_snake r gs)))%nat /\
                 exists head, nth_error (positions (get_snake r gs)) 0
                              = Some head) /\
      (exists b, checkCollision gs = Some b) /\
      (forall w, exists gs' w',
          update gs w = Some ((js_undefined, gs'), w') /\ nonempty gs') /\
      (forall w, exists gs' w',
          resetGame gs w = Some (gs', w') /\ nonempty gs')).
Proof.
  split.
  - intros w. exists (fresh_state w), (tick_clock (draw 2 w)).
    repeat split.
  - intros gs R. pose proof (reachable_nonempty gs R) as Hne.
    repeat split.
    + destruct Hne as [H1 H2].
      destruct r; [ destruct (has_head_inv _ H1) as (h & b & E)
                  | destruct (has_head_inv _ H2) as (h & b & E) ];
        simpl get_snake; rewrite E; simpl; lia.
    + destruct Hne as [H1 H2].
      destruct r; [ destruct (has_head_inv _ H1) as (h & b & E)
                  | destruct (has_head_inv _ H2) as (h & b & E) ];
        simpl get_snake; rewrite E; now exists h.
    + exists (collides gs). now apply checkCollision_run.
    + intros w. rewrite (update_run gs w Hne).
      destruct (too_early (now_of w) (lastUpdate gs)).
      * now exists gs, (tick_clock w).
      * eexists _, _; split; [ reflexivity | ].
        now apply advanced_nonempty.
    + intros w. exists (fresh_state w), (tick_clock (draw 2 w)).
      split; [ reflexivity | apply fresh_state_nonempty ].
Qed.

Lemma positions_nonempty_witness :
  reachable Demo.start /\
  (forall r, (1 <= List.length (positions (get_snake r Demo.start)))%nat /\
             exists head, nth_error (positions (get_snake r Demo.start)) 0
                          = Some head).
Proof.
  assert (R : reachable Demo.start)
    by (apply (reach_init Demo.world _ (tick_clock (draw 2 Demo.world)));
        reflexivity).
  split; [ exact R | ].
  exact (proj1 (proj2 positions_nonempty Demo.start R)).
Defined.

(** ** Direction requests *)

Lemma rejected_valid d c :
  Direction.valid d -> Direction.valid c ->
  (rejected d c = true <-> Direction.same_axis d c \/ d = Direction.neg c).
Proof.
  unfold Direction.same_axis, Direction.vertical, Direction.horizontal.
  intros Hd Hc; destruct Hd, Hc; vm_compute; split;
    try discriminate; auto;
    intros H; exfalso; intuition discriminate.
Qed.

Lemma valid_axes d c :
  Direction.valid d -> Direction.valid c ->
  (Direction.same_axis d c <-> d = c \/ d = Direction.neg c) /\
  (Direction.perpendicular d c <-> ~ Direction.same_axis d c) /\
  (Direction.perpendicular d c <-> rejected d c = false).
Proof.
  unfold Direction.same_axis, Direction.perpendicular,
    Direction.vertical, Direction.horizontal.
  intros Hd Hc; destruct Hd, Hc; vm_compute; intuition discriminate.
Qed.

(** ** The registry *)

Section MapFacts.
Context {V : Type}.
Implicit Types (m : Map.t V) (k : string) (v : V).

Lemma map_get_set k v m : Map.get k (Map.set k v m) = Some v.
Proof.
  induction m as [| [k' v'] m IH]; simpl.
  - now rewrite String.eqb_refl.
  - destruct (String.eqb k k') eqn:E; simpl; rewrite E; auto.
Qed.

Lemma map_get_set_other k k0 v m :
  k0 <> k -> Map.get k0 (Map.set k v m) = Map.get k0 m.
Proof.
  intros N. induction m as [| [k' v'] m IH]; simpl.
  - destruct (String.eqb_spec k0 k); congruence.
  - destruct (String.eqb_spec k k') as [-> | Hk]; simpl.
    + destruct (String.eqb_spec k0 k'); congruence.
    + now rewrite IH.
Qed.

Lemma map_get_delete_other k k0 m :
  k0 <> k -> Map.get k0 (Map.delete k m) = Map.get k0 m.
Proof.
  intros N. induction m as [| [k' v'] m IH]; simpl; [ reflexivity | ].
  destruct (String.eqb_spec k k') as [-> | Hk]; simpl.
  - destruct (String.eqb_spec k0 k'); congruence.
  - now rewrite IH.
Qed.

Lemma map_get_absent k m : ~ In k (Map.keys m) -> Map.get k m = None.
Proof.
  induction m as [| [k' v'] m IH]; simpl; [ reflexivity | ].
  intros N. destruct (String.eqb_spec k k') as [-> | Hk]; [ tauto | ].
  apply IH. tauto.
Qed.

Lemma map_get_delete k m :
  Map.wf m -> Map.get k (Map.delete k m) = None.
Proof.
  unfold Map.wf. induction m as [| [k' v'] m IH]; simpl; [ reflexivity | ].
  intros W. inversion W as [| ? ? Hnotin Hnd]; subst.
  destruct (String.eqb_spec k k') as [-> | Hk]; simpl.
  - now apply map_get_absent.
  - destruct (String.eqb_spec k k'); [ congruence | ]. now apply IH.
Qed.

Lemma map_delete_set k v m : Map.delete k (Map.set k v m) = Map.delete k m.
Proof.
  induction m as [| [k' v'] m IH]; simpl.
  - now rewrite String.eqb_refl.
  - destruct (String.eqb k k') eqn:E; simpl; rewrite E; congruence.
Qed.

End MapFacts.

(** Removing the first occurrence. *)
Lemma splice1_indexOf socket l i :
  indexOf socket l = Some i ->
  exists before after,
    l = (before ++ socket :: after)%list /\
    ~ In socket before /\
    List.length before = i /\
    splice1 i l = (before ++ after)%list.
Proof.
  revert i; induction l as [| a l IH]; simpl; intros i; [ discriminate | ].
  destruct (String.eqb_spec a socket) as [-> | Ha].
  - intros [= <-]. exists [], l. simpl. tauto.
  - destruct (indexOf socket l) as [i' |]; simpl; [ | discriminate ].
    intros [= <-]. destruct (IH i' eq_refl) as (b & c & -> & Hnb & Hl & Hs).
    exists (a :: b), c. simpl. rewrite Hs, Hl.
    repeat split; try reflexivity. intros [H | H]; [ congruence | tauto ].
Qed.

Lemma find_room_found socket m roomId room i :
  find_room socket m = Some (roomId, room, i) ->
  In (roomId, room) m /\ indexOf socket (players room) = Some i.
Proof.
  induction m as [| [k v] m IH]; simpl; [ discriminate | ].
  destruct (indexOf socket (players v)) as [j |] eqn:E.
  - intros [= <- <- <-]. auto.
  - intros H. destruct (IH H). auto.
Qed.

Lemma find_room_get socket m roomId room i :
  Map.wf m -> find_room socket m = Some (roomId, room, i) ->
  Map.get roomId m = Some room.
Proof.
  unfold Map.wf. induction m as [| [k v] m IH]; simpl; [ discriminate | ].
  intros W. inversion W as [| ? ? Hnotin Hnd]; subst.
  destruct (indexOf socket (players v)) as [j |] eqn:E.
  - intros [= <- <- <-]. now rewrite String.eqb_refl.
  - intros H. destruct (String.eqb_spec roomId k) as [-> | Hk].
    + exfalso. apply Hnotin. destruct (find_room_found _ _ _ _ _ H) as [Hin _].
      apply (in_map fst) in Hin. exact Hin.
    + now apply IH.
Qed.

(** Changing the found room, but not its players, leaves it the found one. *)
Lemma find_room_set socket m roomId room room' i :
  Map.wf m -> find_room socket m = Some (roomId, room, i) ->
  players room' = players room ->
  find_room socket (Map.set roomId room' m) = Some (roomId, room', i).
Proof.
  unfold Map.wf. intros W F P. revert W F.
  induction m as [| [k v] m IH]; simpl; [ discriminate | ].
  intros W. inversion W as [| ? ? Hnotin Hnd]; subst.
  destruct (indexOf socket (players v)) as [j |] eqn:E.
  - intros [= <- <- <-]. rewrite String.eqb_refl. simpl. now rewrite P, E.
  - intros H. destruct (String.eqb_spec roomId k) as [-> | Hk].
    + exfalso. apply Hnotin. destruct (find_room_found _ _ _ _ _ H) as [Hin _].
      apply (in_map fst) in Hin. exact Hin.
    + simpl. rewrite E. now apply IH.
Qed.

Lemma lobby_playing_rooms :
  rooms Lobby.playing = [("room-a"%string, Lobby.room_a)].
Proof. reflexivity. Qed.

Lemma lobby_playing_wf : Map.wf (rooms Lobby.playing).
Proof.
  rewrite lobby_playing_rooms. unfold Map.wf; simpl.
  constructor; [ intros [] | constructor ].
Qed.
(** A room's life: created, joined, left by one player, left by both. *)
Example room_created :
  on_createRoom "alice" Lobby.empty Demo.world =
  Some (({| rooms := [("room-a"%string,
                       mkGameRoom "room-a" ["alice"%string] Demo.start None)];
            next_timer := 0 |},
         [socket_join "alice" "room-a";
          socket_emit "alice" "roomCreated" (text "room-a")]),
        tick_clock (draw 2 (mkWorld Demo.random 0 Demo.clock 0 Demo.uuid 1))).
Proof. reflexivity. Qed.

Example room_joined :
  on_joinRoom "bob" "room-a" Lobby.waiting =
  ({| rooms := [("room-a"%string, Lobby.room_a)]; next_timer := 1 |},
   [socket_join "bob" "room-a"; io_to_emit "room-a" "roomJoined" no_payload;
    setInterval (Interval 0)]).
Proof. reflexivity. Qed.

Example room_left_by_one :
  on_disconnect "bob" Lobby.playing =
  ({| rooms := [("room-a"%string,
                 mkGameRoom "room-a" ["alice"%string] Demo.start None)];
      next_timer := 1 |},
   [clearInterval (Interval 0)]).
Proof. reflexivity. Qed.

Example room_left_by_both :
  on_disconnect "alice" (fst (on_disconnect "bob" Lobby.playing)) =
  ({| rooms := []; next_timer := 1 |}, []).
Proof. reflexivity. Qed.

(** ** The claims about the handlers *)

(** *** Where the handlers find a socket *)

Lemma indexOf_absent socket l : ~ In socket l -> indexOf socket l = None.
Proof.
  induction l as [| a l IH]; cbn [indexOf]; [ reflexivity | ].
  intros H. destruct (String.eqb_spec a socket) as [-> | Ha].
  - exfalso. apply H. now left.
  - rewrite IH; [ reflexivity | ]. intros Hin. apply H. now right.
Qed.

Lemma indexOf_first socket before after :
  ~ In socket before ->
  indexOf socket (before ++ socket :: after) = Some (List.length before).
Proof.
  induction before as [| a l IH]; cbn [indexOf app List.length]; intros H.
  - now rewrite String.eqb_refl.
  - destruct (String.eqb_spec a socket) as [-> | Ha].
    + exfalso. apply H. now left.
    + rewrite IH; [ reflexivity | ]. intros Hin. apply H. now right.
Qed.

Lemma splice1_first {A : Type} (before after : list A) (a : A) :
  splice1 (List.length before) (before ++ a :: after) = (before ++ after)%list.
Proof.
  induction before as [| b l IH]; cbn [splice1 app List.length];
    [ reflexivity | ]. now rewrite IH.
Qed.

Lemma find_room_skip socket earlier m :
  (forall k r, In (k, r) earlier -> ~ In socket (players r)) ->
  find_room socket (earlier ++ m) = find_room socket m.
Proof.
  induction earlier as [| [k v] l IH]; cbn [find_room app]; intros H;
    [ reflexivity | ].
  rewrite (indexOf_absent socket (players v));
    [ | apply (H k); now left ].
  apply IH. intros k' r Hin. apply (H k'). now right.
Qed.

Lemma plays_in_found socket sv earlier roomId room later before after :
  plays_in socket sv earlier roomId room later before after ->
  find_room socket (rooms sv) = Some (roomId, room, List.length before).
Proof.
  intros (Er & He & Ep & Hb). rewrite Er, (find_room_skip _ _ _ He).
  cbn [find_room]. now rewrite Ep, (indexOf_first _ _ _ Hb).
Qed.

Section MapMiddle.
Context {V : Type}.
Implicit Types (m earlier later : Map.t V) (k : string) (v : V).

Lemma map_wf_middle earlier k v later :
  Map.wf (earlier ++ (k, v) :: later) -> ~ In k (Map.keys earlier).
Proof.
  unfold Map.wf, Map.keys. rewrite map_app. cbn [map fst].
  intros W Hin. apply NoDup_remove_2 in W. apply W.
  apply in_or_app. now left.
Qed.

Lemma map_set_middle earlier k v v' later :
  ~ In k (Map.keys earlier) ->
  Map.set k v' (earlier ++ (k, v) :: later) = (earlier ++ (k, v') :: later)%list.
Proof.
  induction earlier as [| [k0 v0] l IH]; cbn; intros H.
  - now rewrite String.eqb_refl.
  - destruct (String.eqb_spec k k0) as [-> | Hk]; [ tauto | ].
    rewrite IH; [ reflexivity | tauto ].
Qed.

Lemma map_delete_middle earlier k v later :
  ~ In k (Map.keys earlier) ->
  Map.delete k (earlier ++ (k, v) :: later) = (earlier ++ later)%list.
Proof.
  induction earlier as [| [k0 v0] l IH]; cbn; intros H.
  - now rewrite String.eqb_refl.
  - destruct (String.eqb_spec k k0) as [-> | Hk]; [ tauto | ].
    rewrite IH; [ reflexivity | tauto ].
Qed.
End MapMiddle.

(** C6 (direction requests).  Take a socket and the room it plays in: the
    first room of the registry that lists it.  Its snake is snake 1 if it is
    the first player of the room and snake 2 otherwise.  A request for one of
    the four directions leaves the server as it is exactly when the
    requested direction lies on the axis of that snake's current one (the
    same direction or its negation); a perpendicular request, which is every
    other case, stores the requested direction in that snake and changes
    nothing else: not the other snake, the food, the players, the interval
    or any other room.  The handler emits nothing. *)
Theorem direction_request socket d sv earlier roomId room later before after :
  Map.wf (rooms sv) ->
  plays_in socket sv earlier roomId room later before after ->
  Direction.valid d ->
  Direction.valid (direction (steered before (gameState room))) ->
  let current := direction (steered before (gameState room)) in
  let turned :=
    mkServer
      (earlier
       ++ (roomId, mkGameRoom (id room) (players room)
                              (steer before d (gameState room))
                              (gameLoop room))
       :: later)%list
      (next_timer sv) in
  (on_direction socket d sv = sv <->
     Direction.same_axis d current \/ d = Direction.neg current) /\
  (d = Direction.neg current -> on_direction socket d sv = sv) /\
  (d = current -> on_direction socket d sv = sv) /\
  (Direction.perpendicular d current <->
     ~ (Direction.same_axis d current \/ d = Direction.neg current)) /\
  (Direction.perpendicular d current -> on_direction socket d sv = turned).
Proof.
  intros W P Hd Hc current turned.
  pose proof (plays_in_found _ _ _ _ _ _ _ _ P) as F.
  destruct P as (Er & _ & _ & _).
  destruct (valid_axes d current Hd Hc) as (Hsame & Hperp & Hrej).
  pose proof (rejected_valid d current Hd Hc) as Hr.
  assert (Hcur : direction (get_snake (player_snake (List.length before))
                                      (gameState room)) = current).
  { subst current. destruct before; reflexivity. }
  assert (Hrun : on_direction socket d sv =
                 if rejected d current then sv else turned).
  { unfold on_direction. rewrite F, Hcur.
    destruct (rejected d current); [ reflexivity | ].
    subst turned. f_equal. rewrite Er.
    rewrite map_set_middle
      by (apply (map_wf_middle earlier roomId room later); now rewrite <- Er).
    destruct before; reflexivity. }
  assert (Hno : Direction.same_axis d current \/ d = Direction.neg current ->
                on_direction socket d sv = sv).
  { intros H. apply Hr in H. now rewrite Hrun, H. }
  split; [ split; [ | exact Hno ] | ].
  - intros Heq. destruct (rejected d current) eqn:E; [ now apply Hr | ].
    exfalso. rewrite Hrun in Heq.
    assert (Hdc : d = current).
    { assert (R : rooms turned = rooms sv) by now rewrite Heq.
      subst turned. cbn [rooms] in R. rewrite Er in R.
      apply app_inv_head in R.
      assert (G : steer before d (gameState room) = gameState room).
      { injection R as R. apply (f_equal gameState) in R. exact R. }
      subst current. rewrite <- G. destruct before; reflexivity. }
    assert (Hs : Direction.same_axis d current) by (apply Hsame; auto).
    assert (Habs : false = true) by (apply Hr; left; exact Hs).
    discriminate Habs.
  - split; [ auto | ].
    split; [ intros H; apply Hno; left; apply Hsame; auto | ].
    split; [ rewrite Hperp, Hsame; tauto | ].
    intros Pp. apply Hrej in Pp. now rewrite Hrun, Pp.
Qed.

(** The first player turns snake 1, the second player snake 2. *)
Lemma direction_request_witness :
  on_direction "alice" Direction.UP Lobby.playing
  = mkServer
      [("room-a"%string,
        mkGameRoom "room-a" ["alice"%string; "bob"%string]
          (mkGameState (set_direction initial_snake1 Direction.UP)
                       initial_snake2 (food Demo.start)
                       (lastUpdate Demo.start))
          (Some (Interval 0)))] 1
  /\
  on_direction "bob" Direction.DOWN Lobby.playing
  = mkServer
      [("room-a"%string,
        mkGameRoom "room-a" ["alice"%string; "bob"%string]
          (mkGameState initial_snake1
                       (set_direction initial_snake2 Direction.DOWN)
                       (food Demo.start) (lastUpdate Demo.start))
          (Some (Interval 0)))] 1.
Proof.
  split.
  - refine (proj2 (proj2 (proj2 (proj2
      (direction_request "alice" Direction.UP Lobby.playing
         [] "room-a" Lobby.room_a [] [] ["bob"%string]
         lobby_playing_wf _ Direction.valid_UP Direction.valid_RIGHT)))) _).
    + repeat split; [ intros k r [] | intros [] ].
    + left; split; [ left | right ]; reflexivity.
  - refine (proj2 (proj2 (proj2 (proj2
      (direction_request "bob" Direction.DOWN Lobby.playing
         [] "room-a" Lobby.room_a [] ["alice"%string] []
         lobby_playing_wf _ Direction.valid_DOWN Direction.valid_LEFT)))) _).
    + repeat split; [ intros k r [] | intros [H | []]; discriminate H ].
    + left; split; [ right | left ]; reflexivity.
Defined.

(** C8 (failed joins).  Joining a room id that the registry does not hold
    sends the requester the error "room does not exist"; joining a room that
    has two (or more) players sends the error "room is full".  In both
    cases the server is left exactly as it was and nothing else is
    emitted. *)
Theorem join_failures socket roomId sv :
  (Map.get roomId (rooms sv) = None ->
   on_joinRoom socket roomId sv
   = (sv, [socket_emit socket "error" (text RoomNotFound)])) /\
  (forall room,
     Map.get roomId (rooms sv) = Some room ->
     (2 <= List.length (players room))%nat ->
     on_joinRoom socket roomId sv
     = (sv, [socket_emit socket "error" (text RoomFull)])).
Proof.
  unfold on_joinRoom. split.
  - now intros ->.
  - intros room -> H. apply Nat.leb_le in H. now rewrite H.
Qed.

Lemma join_failures_witness :
  on_joinRoom "carol" "room-z" Lobby.playing
  = (Lobby.playing, [socket_emit "carol" "error" (text RoomNotFound)]) /\
  on_joinRoom "carol" "room-a" Lobby.playing
  = (Lobby.playing, [socket_emit "carol" "error" (text RoomFull)]).
Proof.
  split.
  - apply (proj1 (join_failures "carol" "room-z" Lobby.playing)).
    reflexivity.
  - apply (proj2 (join_failures "carol" "room-a" Lobby.playing) Lobby.room_a).
    + reflexivity.
    + simpl. lia.
Defined.

(** [Lobby.alone] is the server that a [createRoom] and a [joinRoom] of the
    same socket leave. *)
Example alice_joins_her_room :
  option_map (fun r => fst (fst r))
    (run [ev_createRoom "alice"; ev_joinRoom "alice" "room-a"]
         Lobby.empty Demo.world)
  = Some Lobby.alone
  /\ map (fun kv => players (snd kv)) (rooms Lobby.alone)
     = [["alice"%string; "alice"%string]].
Proof. split; vm_compute; reflexivity. Qed.

(** After her disconnect "alice" is still a player of her room. *)
Lemma disconnect_keeps_a_double_entry :
  ~ disconnect_removes_occupant "alice" Lobby.alone.
Proof.
  intros H.
  apply (H [] "room-a"%string
           (mkGameRoom "room-a" ["alice"%string; "alice"%string] Demo.start
                       (Some (Interval 0)))
           [] [] ["alice"%string]
           (mkGameRoom "room-a" ["alice"%string] Demo.start None)).
  - repeat split; [ intros k r [] | intros [] ].
  - left. reflexivity.
  - left. reflexivity.
Qed.

(** C9 (disconnect), as the code has it.  Take a socket and the room it
    plays in: the first room of the registry that lists it.  The handler
    removes the socket's first entry from that room's player list and
    clears the room's interval, so that no tick runs any more.  If the list
    is then empty the room leaves the registry; otherwise the room stays in
    its place under its id, with its game state (both snakes, the food,
    [lastUpdate]) exactly as it was.  All other rooms are as before.  A
    socket that was listed once, and in that room only, is then a player of
    no room. *)
Theorem disconnect_frame socket sv earlier roomId room later before after :
  Map.wf (rooms sv) ->
  plays_in socket sv earlier roomId room later before after ->
  let remaining := (before ++ after)%list in
  let left := mkGameRoom (id room) remaining (gameState room) None in
  on_disconnect socket sv =
    (mkServer (match remaining with
               | [] => (earlier ++ later)%list
               | _ :: _ => (earlier ++ (roomId, left) :: later)%list
               end)
              (next_timer sv),
     match gameLoop room with Some h => [clearInterval h] | None => [] end) /\
  gameState left = gameState room /\
  (forall w, tick left w = Some ((left, []), w)) /\
  (~ In socket after ->
   (forall k r, In (k, r) later -> ~ In socket (players r)) ->
   forall k r, In (k, r) (rooms (fst (on_disconnect socket sv))) ->
               ~ In socket (players r)).
Proof.
  intros W P remaining left.
  pose proof (plays_in_found _ _ _ _ _ _ _ _ P) as F.
  destruct P as (Er & He & Ep & Hb).
  assert (Hk : ~ In roomId (Map.keys earlier))
    by (apply (map_wf_middle earlier roomId room later); now rewrite <- Er).
  assert (Hs : splice1 (List.length before) (players room) = remaining)
    by (rewrite Ep; apply splice1_first).
  assert (Hrun : on_disconnect socket sv =
    (mkServer (match remaining with
               | [] => (earlier ++ later)%list
               | _ :: _ => (earlier ++ (roomId, left) :: later)%list
               end)
              (next_timer sv),
     match gameLoop room with Some h => [clearInterval h] | None => [] end)).
  { unfold on_disconnect, stopGame. rewrite F, Hs.
    cbn [gameLoop set_players].
    assert (Hleft : forall l, mkGameRoom (id room) remaining (gameState room) l
                              = set_players room remaining -> l = gameLoop room)
      by (intros l [= ->]; reflexivity).
    destruct (gameLoop room) as [h |] eqn:G;
      cbn [players set_gameLoop set_players id gameState];
      fold left; rewrite Er;
      destruct remaining as [| a l] eqn:R; cbn [List.length Nat.eqb];
      rewrite ?map_set_middle by exact Hk;
      rewrite ?map_delete_middle by exact Hk;
      try reflexivity;
      unfold left, set_players; rewrite G; reflexivity. }
  split; [ exact Hrun | ]. split; [ reflexivity | ]. split; [ reflexivity | ].
  intros Ha Hl k r. rewrite Hrun. cbn [fst rooms]. intros Hin.
  assert (Hrem : ~ In socket remaining).
  { unfold remaining. intros Hx. apply in_app_or in Hx. tauto. }
  destruct remaining as [| a l] eqn:R.
  - apply in_app_or in Hin. destruct Hin as [Hin | Hin];
      [ now apply (He k) | now apply (Hl k) ].
  - apply in_app_or in Hin. destruct Hin as [Hin | [Hin | Hin]].
    + now apply (He k).
    + injection Hin as <- <-. exact Hrem.
    + now apply (Hl k).
Qed.

(** The second player leaves: the first stays with the state as it was.
    Then the first leaves too: the registry is empty. *)
Lemma disconnect_frame_witness :
  on_disconnect "bob" Lobby.playing
  = (mkServer [("room-a"%string,
                mkGameRoom "room-a" ["alice"%string] Demo.start None)] 1,
     [clearInterval (Interval 0)])
  /\
  on_disconnect "alice" (fst (on_disconnect "bob" Lobby.playing))
  = (mkServer [] 1, []).
Proof.
  split.
  - refine (proj1
      (disconnect_frame "bob" Lobby.playing
         [] "room-a" Lobby.room_a [] ["alice"%string] []
         lobby_playing_wf _)).
    repeat split; [ intros k r [] | intros [H | []]; discriminate H ].
  - refine (proj1
      (disconnect_frame "alice"
         (mkServer [("room-a"%string,
                     mkGameRoom "room-a" ["alice"%string] Demo.start None)] 1)
         [] "room-a" (mkGameRoom "room-a" ["alice"%string] Demo.start None)
         [] [] [] _ _)).
    + unfold Map.wf; cbn. constructor; [ intros [] | constructor ].
    + repeat split; [ intros k r [] | intros [] ].
Defined.

(** * Further properties of the engine *)

(** ** The torus *)

(** The value of one axis of [newHead], case by case. *)
Lemma wrap_value n x delta :
  0 <= x < n -> - n <= delta <= n ->
  Z.rem (x + delta + n) n =
  if x + delta <? 0 then x + delta + n
  else if x + delta <? n then x + delta
  else x + delta - n.
Proof.
  intros Hx Hd. rewrite Z.rem_mod_nonneg by lia.
  destruct (Z.ltb_spec (x + delta) 0).
  - symmetry. apply Z.mod_unique with 0; lia.
  - destruct (Z.ltb_spec (x + delta) n).
    + symmetry. apply Z.mod_unique with 1; lia.
    + symmetry. apply Z.mod_unique with 2; lia.
Qed.

Lemma newHead_coordinates p d :
  in_canvas p -> Direction.valid d ->
  Position.x (newHead p d) =
    (let a := Position.x p + Direction.x d * BLOCK_SIZE in
     if a <? 0 then a + CANVAS_WIDTH
     else if a <? CANVAS_WIDTH then a else a - CANVAS_WIDTH) /\
  Position.y (newHead p d) =
    (let a := Position.y p + Direction.y d * BLOCK_SIZE in
     if a <? 0 then a + CANVAS_HEIGHT
     else if a <? CANVAS_HEIGHT then a else a - CANVAS_HEIGHT).
Proof.
  intros [Hx Hy] Hd. destruct (valid_components d Hd) as [Bx By].
  unfold newHead; cbn [Position.x Position.y]; cbv zeta.
  split; apply wrap_value; constants; lia.
Qed.

Lemma newHead_in_canvas p d :
  in_canvas p -> Direction.valid d -> in_canvas (newHead p d).
Proof.
  intros Hp Hd. destruct (newHead_coordinates p d Hp Hd) as [Ex Ey].
  destruct Hp as [Hx Hy]. destruct (valid_components d Hd) as [Bx By].
  unfold in_canvas. rewrite Ex, Ey. cbv zeta. constants.
  repeat match goal with |- context [?a <? ?b] =>
    destruct (Z.ltb_spec a b) end; lia.
Qed.

Lemma newHead_inverse p d :
  in_canvas p -> Direction.valid d ->
  newHead (newHead p d) (Direction.neg d) = p.
Proof.
  intros Hp Hd.
  destruct (newHead_coordinates p d Hp Hd) as [Ex Ey].
  pose proof (newHead_in_canvas p d Hp Hd) as Hq.
  assert (Hn : Direction.valid (Direction.neg d)) by (destruct Hd; constructor).
  destruct (newHead_coordinates (newHead p d) (Direction.neg d) Hq Hn)
    as [Bx By].
  destruct p as [px py]. destruct Hp as [Hx Hy].
  cbn [Position.x Position.y] in *.
  destruct (newHead (newHead (Position.mk px py) d) (Direction.neg d))
    as [qx qy].
  destruct (newHead (Position.mk px py) d) as [mx my].
  cbn [Position.x Position.y] in *. subst qx qy mx my.
  destruct Hd; cbn [Direction.neg Direction.x Direction.y
                    Direction.UP Direction.DOWN Direction.LEFT
                    Direction.RIGHT]; cbv zeta; constants;
    f_equal;
    repeat match goal with |- context [?a <? ?b] =>
      destruct (Z.ltb_spec a b) end; lia.
Qed.

Lemma newHead_moves p d :
  in_canvas p -> Direction.valid d -> newHead p d <> p.
Proof.
  intros Hp Hd E.
  destruct (newHead_coordinates p d Hp Hd) as [Ex Ey].
  destruct p as [px py]. destruct Hp as [Hx Hy].
  rewrite E in Ex, Ey. cbn [Position.x Position.y] in *.
  cbv zeta in Ex, Ey. constants.
  destruct Hd; cbn [Direction.x Direction.y Direction.UP Direction.DOWN
                    Direction.LEFT Direction.RIGHT] in Ex, Ey;
    repeat match goal with H : context [?a <? ?b] |- _ =>
      destruct (Z.ltb_spec a b) end; lia.
Qed.

(** X1.  On the canvas, a step in one of the four directions followed by a
    step in the opposite direction leads back to the cell one started from,
    also across an edge; and a single step never stays on its cell: it
    changes exactly the coordinate of the direction's axis. *)
Theorem newHead_back_and_forth p d :
  in_canvas p -> Direction.valid d ->
  newHead (newHead p d) (Direction.neg d) = p /\
  newHead p d <> p /\
  (Direction.x d = 0 -> Position.x (newHead p d) = Position.x p) /\
  (Direction.y d = 0 -> Position.y (newHead p d) = Position.y p).
Proof.
  intros Hp Hd.
  split; [ now apply newHead_inverse | ].
  split; [ now apply newHead_moves | ].
  destruct (newHead_coordinates p d Hp Hd) as [Ex Ey].
  destruct Hp as [Hx Hy].
  split; intros Z0.
  - rewrite Ex, Z0. cbv zeta. constants.
    repeat match goal with |- context [?a <? ?b] =>
      destruct (Z.ltb_spec a b) end; lia.
  - rewrite Ey, Z0. cbv zeta. constants.
    repeat match goal with |- context [?a <? ?b] =>
      destruct (Z.ltb_spec a b) end; lia.
Qed.

Lemma newHead_back_and_forth_witness :
  newHead (newHead (Demo.cell 780 0) Direction.RIGHT)
          (Direction.neg Direction.RIGHT) = Demo.cell 780 0 /\
  newHead (Demo.cell 780 0) Direction.RIGHT <> Demo.cell 780 0 /\
  (Direction.x Direction.RIGHT = 0 ->
   Position.x (newHead (Demo.cell 780 0) Direction.RIGHT) = 780) /\
  (Direction.y Direction.RIGHT = 0 ->
   Position.y (newHead (Demo.cell 780 0) Direction.RIGHT) = 0).
Proof.
  apply (newHead_back_and_forth (Demo.cell 780 0) Direction.RIGHT).
  - unfold in_canvas; simpl; constants; lia.
  - constructor.
Defined.

(** ** The invariant of the game state *)

Lemma Forall_removelast {A : Type} (P : A -> Prop) (l : list A) :
  Forall P l -> Forall P (removelast l).
Proof.
  induction 1 as [| a l Ha Hl IH]; [ constructor | ].
  destruct l as [| b l]; [ constructor | ].
  change (removelast (a :: b :: l)) with (a :: removelast (b :: l)).
  now constructor.
Qed.

Lemma on_grid_in_canvas p : on_grid p -> in_canvas p.
Proof. intros (Hx & Hy & _). now split. Qed.

Lemma moved_snake_ok food0 s : snake_ok s -> snake_ok (moved food0 s).
Proof.
  intros (Hh & Hg & Hd & Hs).
  destruct (has_head_inv _ Hh) as (h & body & E).
  assert (Hnh : on_grid (newHead h (direction s))).
  { apply newHead_on_grid; [ | exact Hd ].
    rewrite E in Hg. now inversion Hg. }
  unfold snake_ok. split; [ now apply moved_has_head | ].
  unfold moved. rewrite E. cbv zeta.
  destruct (eats food0 s); cbn [positions direction score].
  - rewrite <- E. repeat split; auto.
    rewrite Hs. cbn [List.length]. lia.
  - repeat split; auto.
    + apply Forall_removelast. constructor; [ exact Hnh | now rewrite <- E ].
    + rewrite length_removelast_cons, Hs, E. reflexivity.
Qed.

Lemma spawn_cells_on_grid :
  on_grid {| Position.x := CANVAS_WIDTH / 4; Position.y := CANVAS_HEIGHT / 2 |}
  /\ on_grid {| Position.x := (CANVAS_WIDTH * 3) / 4;
                Position.y := CANVAS_HEIGHT / 2 |}.
Proof.
  unfold on_grid; cbn [Position.x Position.y].
  change (CANVAS_WIDTH / 4) with 200. change (CANVAS_HEIGHT / 2) with 300.
  change ((CANVAS_WIDTH * 3) / 4) with 600. constants.
  repeat split; try lia;
    [ exists 10 | exists 15 | exists 30 | exists 15 ]; reflexivity.
Qed.

Lemma initial_snakes_ok : snake_ok initial_snake1 /\ snake_ok initial_snake2.
Proof.
  destruct spawn_cells_on_grid as [G1 G2].
  split; (split; [ unfold has_head; simpl; discriminate | ]);
    (split; [ | split; [ constructor | reflexivity ] ]);
    cbn [positions initial_snake1 initial_snake2];
    (constructor; [ assumption | constructor ]).
Qed.

Lemma fresh_state_ok w : random_ok w -> state_ok (fresh_state w).
Proof.
  intros H. destruct initial_snakes_ok as [H1 H2].
  split; [ exact H1 | split; [ exact H2 | now apply next_food_on_grid ] ].
Qed.

Lemma random_ok_tape w w' :
  random_tape w' = random_tape w -> random_ok w -> random_ok w'.
Proof. intros E H n. rewrite E. apply H. Qed.

Lemma after_moves_tape gs w :
  random_tape (snd (after_moves gs w)) = random_tape w.
Proof.
  unfold after_moves.
  destruct (eats (food gs) (snake1 gs)), (eats (food gs) (snake2 gs));
    reflexivity.
Qed.

Lemma after_moves_ok gs w :
  state_ok gs -> random_ok w -> state_ok (fst (after_moves gs w)).
Proof.
  intros (H1 & H2 & Hf) Hw.
  pose proof (moved_snake_ok (food gs) _ H1) as M1.
  pose proof (moved_snake_ok (food gs) _ H2) as M2.
  pose proof (next_food_on_grid w Hw) as F1.
  pose proof (next_food_on_grid (draw 2 w) (random_ok_tape w _ eq_refl Hw))
    as F2.
  unfold after_moves, state_ok.
  destruct (eats (food gs) (snake1 gs)), (eats (food gs) (snake2 gs));
    cbn [fst snake1 snake2 food]; auto.
Qed.

Lemma advanced_tape now gs w :
  random_tape (snd (advanced now gs w)) = random_tape w.
Proof.
  unfold advanced. pose proof (after_moves_tape gs w) as T.
  destruct (after_moves gs w) as [gs1 w1]. simpl snd in T.
  destruct (collides gs1); exact T.
Qed.

Lemma advanced_ok now gs w :
  state_ok gs -> random_ok w -> state_ok (fst (advanced now gs w)).
Proof.
  intros Hs Hw. unfold advanced.
  pose proof (after_moves_ok gs w Hs Hw) as H1.
  pose proof (after_moves_tape gs w) as T.
  destruct (after_moves gs w) as [gs1 w1]. simpl fst in H1; simpl snd in T.
  destruct (collides gs1); simpl fst.
  - exact (fresh_state_ok w1 (random_ok_tape w w1 T Hw)).
  - exact H1.
Qed.

Lemma state_ok_nonempty gs : state_ok gs -> nonempty gs.
Proof. intros (H1 & H2 & _). split; [ apply H1 | apply H2 ]. Qed.

(** The step on a state that satisfies the invariant. *)
Lemma update_state_ok gs w :
  state_ok gs -> random_ok w ->
  exists gs' w',
    update gs w = Some ((js_undefined, gs'), w') /\
    state_ok gs' /\ random_tape w' = random_tape w.
Proof.
  intros Hs Hw. rewrite (update_run gs w (state_ok_nonempty gs Hs)).
  destruct (too_early (now_of w) (lastUpdate gs)).
  - exists gs, (tick_clock w). auto.
  - eexists _, _. split; [ reflexivity | ]. split.
    + apply advanced_ok; [ exact Hs | exact Hw ].
    + now rewrite advanced_tape.
Qed.

(** X2.  With [Math.random()] in [[0, 1)], the state that
    [initializeGameState] builds has both snakes and the food on the grid,
    the snakes heading in one of the four directions, and each score equal
    to the number of cells the snake has grown (its length minus one).
    [update] keeps all of this, whether it is rate-limited, advances or
    resets, and it completes without a [TypeError]. *)
Theorem state_invariant gs w :
  random_ok w ->
  (exists gs0 w0, initializeGameState w = Some (gs0, w0) /\ state_ok gs0) /\
  (state_ok gs ->
   exists gs' w',
     update gs w = Some ((js_undefined, gs'), w') /\
     state_ok gs' /\ random_ok w').
Proof.
  intros Hw. split.
  - exists (fresh_state w), (tick_clock (draw 2 w)).
    split; [ reflexivity | now apply fresh_state_ok ].
  - intros Hs. destruct (update_state_ok gs w Hs Hw) as (gs' & w' & U & S' & T).
    exists gs', w'. split; [ exact U | split; [ exact S' | ] ].
    now apply (random_ok_tape w w' T).
Qed.

Lemma state_invariant_witness :
  exists gs' w',
    update Demo.start (tick_clock (draw 2 Demo.world))
      = Some ((js_undefined, gs'), w') /\
    state_ok gs' /\ random_ok w'.
Proof.
  apply (proj2 (state_invariant Demo.start (tick_clock (draw 2 Demo.world))
                  (random_ok_tape Demo.world _ eq_refl demo_world_ok))).
  exact (fresh_state_ok Demo.world demo_world_ok).
Defined.

(** ** The rate gate on the millisecond clock *)

Lemma too_early_67 now last :
  too_early now last = true <-> now - last <= 66.
Proof. rewrite too_early_iff. unfold GAME_SPEED. lia. Qed.

(** X3.  Timestamps are whole milliseconds, so the gate [1000 / GAME_SPEED]
    is a threshold of 67 ms: [update] leaves the state untouched when at most
    66 ms have passed since [lastUpdate] (in particular when the clock went
    backwards), and runs the step when at least 67 ms have passed.  After a
    step taken at time [now], a call at any time up to [now + 66] changes
    nothing. *)
Theorem gate_threshold gs w :
  nonempty gs ->
  exists gs' w',
    update gs w = Some ((js_undefined, gs'), w') /\
    (now_of w - lastUpdate gs <= 66 -> gs' = gs) /\
    (67 <= now_of w - lastUpdate gs ->
     advance (now_of w) gs (tick_clock w) = Some (gs', w') /\
     lastUpdate gs' = now_of w /\
     forall w2, now_of w2 <= now_of w + 66 ->
                update gs' w2 = Some ((js_undefined, gs'), tick_clock w2)).
Proof.
  intros Hne. rewrite (update_run gs w Hne).
  destruct (too_early (now_of w) (lastUpdate gs)) eqn:G.
  - apply too_early_67 in G. exists gs, (tick_clock w).
    split; [ reflexivity | ]. split; [ auto | lia ].
  - assert (N : 67 <= now_of w - lastUpdate gs).
    { destruct (Z_le_gt_dec (now_of w - lastUpdate gs) 66) as [L | L];
        [ apply too_early_67 in L; congruence | lia ]. }
    pose proof (advance_run (now_of w) gs (tick_clock w) Hne) as Adv.
    pose proof (advanced_nonempty (now_of w) gs (tick_clock w) Hne) as Hne'.
    assert (L : lastUpdate (fst (advanced (now_of w) gs (tick_clock w)))
                = now_of w).
    { unfold advanced. destruct (after_moves gs (tick_clock w)) as [gs1 w1].
      destruct (collides gs1); reflexivity. }
    destruct (advanced (now_of w) gs (tick_clock w)) as [gs' w'].
    simpl fst in *; simpl snd in *.
    exists gs', w'. split; [ reflexivity | ]. split; [ lia | ].
    intros _. split; [ exact Adv | ]. split; [ exact L | ].
    intros w2 H2. rewrite (update_run gs' w2 Hne'), L.
    assert (E : too_early (now_of w2) (now_of w) = true)
      by (apply too_early_67; lia).
    now rewrite E.
Qed.

Lemma gate_threshold_witness :
  exists gs' w',
    update Demo.start (tick_clock (draw 2 Demo.world))
      = Some ((js_undefined, gs'), w') /\
    (now_of (tick_clock (draw 2 Demo.world)) - lastUpdate Demo.start <= 66 ->
     gs' = Demo.start) /\
    (67 <= now_of (tick_clock (draw 2 Demo.world)) - lastUpdate Demo.start ->
     advance (now_of (tick_clock (draw 2 Demo.world))) Demo.start
             (tick_clock (tick_clock (draw 2 Demo.world))) = Some (gs', w') /\
     lastUpdate gs' = now_of (tick_clock (draw 2 Demo.world)) /\
     forall w2, now_of w2 <= now_of (tick_clock (draw 2 Demo.world)) + 66 ->
                update gs' w2 = Some ((js_undefined, gs'), tick_clock w2)).
Proof.
  apply (gate_threshold Demo.start (tick_clock (draw 2 Demo.world))).
  split; unfold has_head; simpl; discriminate.
Defined.

(** ** Food and the random source *)

Lemma draw_0 w : draw 0 w = w.
Proof. now destruct w. Qed.

(** X4.  The loop over the snakes generates one food per snake whose new
    head is the food cell the step started with, and reads [Math.random()]
    twice for each: with no such snake the food and the random source are
    as before; otherwise the food of the state is the last one generated.
    The loop changes neither a direction nor [lastUpdate]. *)
Theorem food_respawn gs w :
  nonempty gs ->
  let n := (Nat.b2n (eats (food gs) (snake1 gs))
            + Nat.b2n (eats (food gs) (snake2 gs)))%nat in
  exists gs1,
    moveSnakes gs w = Some (gs1, draw (2 * n) w) /\
    (n = 0%nat -> food gs1 = food gs) /\
    (n <> 0%nat -> food gs1 = next_food (draw (2 * (n - 1)) w)) /\
    direction (snake1 gs1) = direction (snake1 gs) /\
    direction (snake2 gs1) = direction (snake2 gs) /\
    lastUpdate gs1 = lastUpdate gs.
Proof.
  intros Hne n. rewrite (moveSnakes_run gs w Hne).
  assert (D : forall s, direction (moved (food gs) s) = direction s).
  { intros s. unfold moved. destruct (positions s); [ reflexivity | ].
    cbv zeta. destruct (eats (food gs) s); reflexivity. }
  unfold after_moves. subst n.
  destruct (eats (food gs) (snake1 gs)), (eats (food gs) (snake2 gs));
    cbn [Nat.b2n Nat.add Nat.mul Nat.sub];
    eexists; (split; [ try reflexivity | ]);
    try (rewrite draw_0; reflexivity);
    cbn [food snake1 snake2 lastUpdate]; rewrite ?D, ?draw_0;
    repeat split; try reflexivity; try congruence; try discriminate.
Qed.

Lemma food_respawn_witness :
  exists gs1,
    moveSnakes Demo.facing Demo.world = Some (gs1, draw (2 * 2) Demo.world) /\
    (2%nat = 0%nat -> food gs1 = food Demo.facing) /\
    (2%nat <> 0%nat -> food gs1 = next_food (draw (2 * (2 - 1)) Demo.world)) /\
    direction (snake1 gs1) = direction (snake1 Demo.facing) /\
    direction (snake2 gs1) = direction (snake2 Demo.facing) /\
    lastUpdate gs1 = lastUpdate Demo.facing.
Proof.
  apply (food_respawn Demo.facing Demo.world).
  split; unfold has_head; simpl; discriminate.
Defined.

(** ** The collision check does not tell the snakes apart *)

(** X5.  On snakes that have a head, [checkCollision] gives the same answer
    when the two snakes are exchanged. *)
Theorem collision_symmetric gs :
  nonempty gs -> checkCollision (swap_snakes gs) = checkCollision gs.
Proof.
  intros Hne.
  assert (Hsw : nonempty (swap_snakes gs)) by (destruct Hne; now split).
  rewrite (checkCollision_run _ Hsw), (checkCollision_run _ Hne).
  destruct Hne as [H1 H2].
  destruct (has_head_inv _ H1) as (h1 & r1 & E1).
  destruct (has_head_inv _ H2) as (h2 & r2 & E2).
  unfold collides, swap_snakes; cbn [snake1 snake2]. rewrite E1, E2.
  f_equal.
  destruct (existsb (fun pos => Position.eqb pos h1) r1),
           (existsb (fun pos => Position.eqb pos h2) r2),
           (existsb (fun pos => Position.eqb pos h1) (h2 :: r2)),
           (existsb (fun pos => Position.eqb pos h2) (h1 :: r1)); reflexivity.
Qed.

Lemma collision_symmetric_witness :
  checkCollision (swap_snakes Demo.coiled) = checkCollision Demo.coiled.
Proof.
  apply (collision_symmetric Demo.coiled).
  split; unfold has_head; simpl; discriminate.
Defined.

(** ** More on the registry *)

Section MapInvariants.
Context {V : Type}.
Implicit Types (m : Map.t V) (k : string) (v : V).

Lemma map_keys_set_in x k v m :
  In x (Map.keys (Map.set k v m)) -> x = k \/ In x (Map.keys m).
Proof.
  induction m as [| [k' v'] m IH]; simpl.
  - intros [<- | []]. now left.
  - destruct (String.eqb_spec k k') as [-> | Hk]; simpl; [ tauto | ].
    intros [<- | H]; [ tauto | ]. destruct (IH H); tauto.
Qed.

Lemma map_keys_delete_in x k m :
  In x (Map.keys (Map.delete k m)) -> In x (Map.keys m).
Proof.
  induction m as [| [k' v'] m IH]; simpl; [ tauto | ].
  destruct (String.eqb_spec k k') as [-> | Hk]; simpl; [ tauto | ].
  intros [<- | H]; [ tauto | ]. right. now apply IH.
Qed.

Lemma map_wf_set k v m : Map.wf m -> Map.wf (Map.set k v m).
Proof.
  unfold Map.wf. induction m as [| [k' v'] m IH]; simpl.
  - intros _. constructor; [ intros [] | constructor ].
  - intros W. inversion W as [| ? ? Hnotin Hnd]; subst.
    destruct (String.eqb_spec k k') as [-> | Hk]; simpl.
    + now constructor.
    + constructor; [ | now apply IH ].
      intros H. apply map_keys_set_in in H. destruct H; congruence.
Qed.

Lemma map_wf_delete k m : Map.wf m -> Map.wf (Map.delete k m).
Proof.
  unfold Map.wf. induction m as [| [k' v'] m IH]; simpl; [ auto | ].
  intros W. inversion W as [| ? ? Hnotin Hnd]; subst.
  destruct (String.eqb_spec k k') as [-> | Hk]; simpl; [ exact Hnd | ].
  constructor; [ | now apply IH ].
  intros H. apply Hnotin. now apply map_keys_delete_in in H.
Qed.

Lemma map_Forall_set (P : string * V -> Prop) k v m :
  Forall P m -> P (k, v) -> Forall P (Map.set k v m).
Proof.
  intros F Hp. induction F as [| [k' v'] m Hkv F IH]; simpl.
  - now constructor.
  - destruct (String.eqb_spec k k') as [-> | Hk]; now constructor.
Qed.

Lemma map_Forall_delete (P : string * V -> Prop) k m :
  Forall P m -> Forall P (Map.delete k m).
Proof.
  intros F. induction F as [| [k' v'] m Hkv F IH]; simpl; [ constructor | ].
  destruct (String.eqb_spec k k'); [ exact F | now constructor ].
Qed.

Lemma map_get_In k v m : Map.get k m = Some v -> In (k, v) m.
Proof.
  induction m as [| [k' v'] m IH]; simpl; [ discriminate | ].
  destruct (String.eqb_spec k k') as [-> | Hk].
  - intros [= ->]. now left.
  - intros H. right. now apply IH.
Qed.
End MapInvariants.

(** ** The handlers, in closed form *)

Lemma on_createRoom_run socket sv w :
  on_createRoom socket sv w =
  Some ((mkServer (Map.set (next_uuid w) (created_room socket w) (rooms sv))
                  (next_timer sv),
         [socket_join socket (next_uuid w);
          socket_emit socket "roomCreated" (text (next_uuid w))]),
        tick_clock (draw 2 (take_uuid w))).
Proof. reflexivity. Qed.

Lemma on_joinRoom_run socket roomId sv room :
  Map.get roomId (rooms sv) = Some room ->
  (List.length (players room) < 2)%nat ->
  on_joinRoom socket roomId sv =
  (mkServer (Map.set roomId (joined_room socket room (next_timer sv)) (rooms sv))
            (match gameLoop room with
             | Some _ => next_timer sv
             | None => S (next_timer sv)
             end),
   ([socket_join socket roomId; io_to_emit roomId "roomJoined" no_payload]
    ++ match gameLoop room with
       | Some _ => []
       | None => [setInterval (Interval (next_timer sv))]
       end)%list).
Proof.
  intros G L. unfold on_joinRoom. rewrite G.
  destruct (Nat.leb_spec 2 (List.length (players room))); [ lia | ].
  unfold startGame, joined_room. cbn [gameLoop set_players].
  destruct (gameLoop room) eqn:E; [ | reflexivity ].
  destruct room; cbn in *; subst; reflexivity.
Qed.

Lemma on_direction_run socket d sv roomId room playerIndex :
  find_room socket (rooms sv) = Some (roomId, room, playerIndex) ->
  on_direction socket d sv =
  if rejected d (direction (get_snake (player_snake playerIndex)
                                      (gameState room)))
  then sv
  else mkServer (Map.set roomId
                   (turned_room (player_snake playerIndex) d room) (rooms sv))
                (next_timer sv).
Proof. intros F. unfold on_direction. now rewrite F. Qed.

Lemma on_disconnect_run socket sv roomId room playerIndex :
  find_room socket (rooms sv) = Some (roomId, room, playerIndex) ->
  on_disconnect socket sv =
  (mkServer (if (List.length (splice1 playerIndex (players room)) =? 0)%nat
             then Map.delete roomId
                    (Map.set roomId (left_room playerIndex room) (rooms sv))
             else Map.set roomId (left_room playerIndex room) (rooms sv))
            (next_timer sv),
   match gameLoop room with Some h => [clearInterval h] | None => [] end).
Proof.
  intros F. unfold on_disconnect, stopGame, left_room. rewrite F.
  cbn [gameLoop set_players].
  destruct (gameLoop room) eqn:G; cbn [players set_gameLoop set_players];
    destruct (List.length (splice1 playerIndex (players room)) =? 0)%nat;
    try reflexivity;
    destruct room; cbn in *; subst; reflexivity.
Qed.

Lemma find_room_None socket m :
  find_room socket m = None <->
  forall k room, In (k, room) m -> indexOf socket (players room) = None.
Proof.
  induction m as [| [k v] m IH]; simpl.
  - split; [ intros _ k room [] | reflexivity ].
  - destruct (indexOf socket (players v)) eqn:E.
    + split; [ discriminate | ].
      intros H. specialize (H k v (or_introl eq_refl)). congruence.
    + rewrite IH. split.
      * intros H k' room [[= <- <-] | Hin]; [ exact E | now apply (H k') ].
      * intros H k' room Hin. apply (H k'). now right.
Qed.

Lemma indexOf_In socket l : indexOf socket l = None <-> ~ In socket l.
Proof.
  induction l as [| a l IH]; simpl; [ tauto | ].
  destruct (String.eqb_spec a socket) as [-> | Ha].
  - split; [ discriminate | tauto ].
  - destruct (indexOf socket l); simpl.
    + split; [ discriminate | ]. intros H.
      assert (N : ~ In socket l) by tauto. apply IH in N. discriminate N.
    + split; [ | reflexivity ]. intros _ [H | H]; [ congruence | ].
      revert H. now apply IH.
Qed.

(** ** The invariant of the server *)

Lemma server_ok_room sv k room :
  server_ok sv -> In (k, room) (rooms sv) -> room_ok k room.
Proof.
  intros [_ F] Hin. rewrite Forall_forall in F. exact (F (k, room) Hin).
Qed.

Lemma server_ok_set sv k room next :
  server_ok sv -> room_ok k room ->
  server_ok (mkServer (Map.set k room (rooms sv)) next).
Proof.
  intros [W F] R. split; cbn [rooms].
  - now apply map_wf_set.
  - now apply map_Forall_set.
Qed.

Lemma created_room_ok socket w :
  random_ok w -> room_ok (next_uuid w) (created_room socket w).
Proof.
  intros Hw. unfold room_ok, created_room;
    cbn [id players gameLoop gameState List.length].
  split; [ reflexivity | ]. split; [ lia | ].
  split; [ split; [ congruence | discriminate ] | ].
  apply (fresh_state_ok (take_uuid w)). exact Hw.
Qed.

Lemma joined_room_ok socket k room next :
  room_ok k room -> (List.length (players room) < 2)%nat ->
  room_ok k (joined_room socket room next) /\ gameLoop room = None.
Proof.
  intros (Hid & Hlen & Hloop & Hst) L.
  assert (N : gameLoop room = None).
  { destruct (gameLoop room) eqn:E; [ | reflexivity ].
    assert (List.length (players room) = 2%nat)
      by (apply Hloop; discriminate). lia. }
  split; [ | exact N ].
  unfold room_ok, joined_room. rewrite N.
  cbn [id players gameLoop gameState]. rewrite length_app.
  cbn [List.length].
  split; [ exact Hid | ]. split; [ lia | ].
  split; [ split; [ lia | discriminate ] | exact Hst ].
Qed.

Lemma turned_room_ok k r d room :
  room_ok k room -> Direction.valid d -> room_ok k (turned_room r d room).
Proof.
  intros (Hid & Hlen & Hloop & (S1 & S2 & Hf)) Hd.
  unfold room_ok, turned_room;
    cbn [id players gameLoop gameState set_gameState].
  split; [ exact Hid | ]. split; [ exact Hlen | ]. split; [ exact Hloop | ].
  destruct S1 as (A1 & B1 & C1 & D1), S2 as (A2 & B2 & C2 & D2).
  destruct r; (split; [ | split ]); try exact Hf;
    repeat split; assumption.
Qed.

Lemma splice1_length socket l i :
  indexOf socket l = Some i ->
  List.length l = S (List.length (splice1 i l)).
Proof.
  intros H. destruct (splice1_indexOf _ _ _ H) as (b & a & -> & _ & _ & ->).
  rewrite !length_app. cbn. lia.
Qed.

Lemma left_room_ok socket k room i :
  room_ok k room -> indexOf socket (players room) = Some i ->
  splice1 i (players room) <> [] ->
  room_ok k (left_room i room).
Proof.
  intros (Hid & Hlen & Hloop & Hst) Hi Hne.
  pose proof (splice1_length _ _ _ Hi) as L.
  unfold room_ok, left_room; cbn [id players gameLoop gameState].
  destruct (splice1 i (players room)) as [| a l]; [ congruence | ].
  cbn [List.length] in *.
  split; [ exact Hid | ]. split; [ lia | ].
  split; [ split; [ congruence | lia ] | exact Hst ].
Qed.

Lemma tick_ok k room w :
  room_ok k room -> random_ok w ->
  exists room' fx w',
    tick room w = Some ((room', fx), w') /\
    room_ok k room' /\ random_tape w' = random_tape w.
Proof.
  intros R Hw. unfold tick. destruct (gameLoop room) eqn:G.
  - destruct R as (Hid & Hlen & Hloop & Hst).
    destruct (update_state_ok _ w Hst Hw) as (gs' & w' & U & S' & T).
    unfold bind. rewrite U. cbn.
    eexists _, _, _. split; [ reflexivity | ]. split; [ | exact T ].
    unfold room_ok; cbn [id players gameLoop gameState set_gameState fst snd].
    tauto.
  - exists room, [], w. auto.
Qed.

(** One event on a server that satisfies the invariant. *)
Lemma handle_ok e sv w :
  server_ok sv -> random_ok w -> event_ok e ->
  exists sv' fx w',
    handle e sv w = Some ((sv', fx), w') /\
    server_ok sv' /\ random_tape w' = random_tape w.
Proof.
  intros Hsv Hw He. destruct e as [s | s k | s d | s | k]; cbn [handle].
  - rewrite on_createRoom_run. eexists _, _, _.
    split; [ reflexivity | ]. split; [ | reflexivity ].
    apply server_ok_set; [ exact Hsv | now apply created_room_ok ].
  - unfold ret. destruct (on_joinRoom s k sv) as [sv' fx] eqn:J.
    exists sv', fx, w. split; [ reflexivity | ]. split; [ | reflexivity ].
    destruct (Map.get k (rooms sv)) as [room |] eqn:G.
    + destruct (Nat.leb_spec 2 (List.length (players room))) as [L | L].
      * unfold on_joinRoom in J. rewrite G in J.
        apply Nat.leb_le in L. rewrite L in J. now injection J as <- _.
      * rewrite (on_joinRoom_run s k sv room G L) in J. injection J as <- _.
        pose proof (server_ok_room sv k room Hsv (map_get_In _ _ _ G)) as R.
        apply server_ok_set; [ exact Hsv | ].
        now apply joined_room_ok.
    + unfold on_joinRoom in J. rewrite G in J. now injection J as <- _.
  - unfold ret. eexists _, _, _. split; [ reflexivity | ].
    split; [ | reflexivity ].
    destruct (find_room s (rooms sv)) as [[[k room] i] |] eqn:F.
    + rewrite (on_direction_run s d sv k room i F).
      destruct (rejected d _); [ exact Hsv | ].
      destruct (find_room_found _ _ _ _ _ F) as [Hin _].
      apply server_ok_set; [ exact Hsv | ].
      apply turned_room_ok; [ | exact He ].
      exact (server_ok_room sv k room Hsv Hin).
    + unfold on_direction. now rewrite F.
  - unfold ret. destruct (on_disconnect s sv) as [sv' fx] eqn:D.
    exists sv', fx, w. split; [ reflexivity | ]. split; [ | reflexivity ].
    destruct (find_room s (rooms sv)) as [[[k room] i] |] eqn:F.
    + rewrite (on_disconnect_run s sv k room i F) in D. injection D as <- _.
      destruct (find_room_found _ _ _ _ _ F) as [Hin Hi].
      pose proof (server_ok_room sv k room Hsv Hin) as R.
      destruct (splice1 i (players room)) as [| a l] eqn:E; cbn [List.length Nat.eqb].
      * rewrite map_delete_set. destruct Hsv as [W Fa]. split; cbn [rooms].
        -- now apply map_wf_delete.
        -- now apply map_Forall_delete.
      * apply server_ok_set; [ exact Hsv | ].
        apply (left_room_ok s); [ exact R | exact Hi | ]. rewrite E. discriminate.
    + unfold on_disconnect in D. rewrite F in D. now injection D as <- _.
  - unfold on_tick. destruct (Map.get k (rooms sv)) as [room |] eqn:G.
    + pose proof (server_ok_room sv k room Hsv (map_get_In _ _ _ G)) as R.
      destruct (tick_ok k room w R Hw) as (room' & fx & w' & T & R' & Tp).
      unfold bind. rewrite T. cbn. eexists _, _, _.
      split; [ reflexivity | ]. split; [ | exact Tp ].
      now apply server_ok_set.
    + exists sv, [], w. auto.
Qed.

(** X6.  Starting from a server that satisfies the invariant (the empty
    server does), after any sequence of events whose directions are of the
    type [Direction], with [Math.random()] in [[0, 1)]: no handler has thrown,
    the keys of the registry are distinct, and every registered room is held
    under its own id, has one or two players, has its interval set exactly
    when it has two players, and has a game state with both snakes and the
    food on the grid. *)
Theorem server_invariant es sv w :
  server_ok sv -> random_ok w -> Forall event_ok es ->
  server_ok Lobby.empty /\
  exists sv' fx w', run es sv w = Some ((sv', fx), w') /\ server_ok sv'.
Proof.
  intros Hsv Hw Hes. split.
  { split; cbn; constructor. }
  revert sv w Hsv Hw.
  induction Hes as [| e es He Hes IH]; intros sv w Hsv Hw.
  - exists sv, [], w. auto.
  - destruct (handle_ok e sv w Hsv Hw He) as (sv1 & fx1 & w1 & H1 & S1 & T1).
    destruct (IH sv1 w1 S1 (random_ok_tape w w1 T1 Hw))
      as (sv2 & fx2 & w2 & H2 & S2).
    exists sv2, (fx1 ++ fx2)%list, w2. split; [ | exact S2 ].
    cbn [run]. unfold bind. rewrite H1. cbn [fst snd]. rewrite H2. reflexivity.
Qed.

Lemma server_invariant_witness :
  server_ok Lobby.empty /\
  exists sv' fx w',
    run [ev_createRoom "alice"; ev_joinRoom "bob" "room-a";
         ev_interval "room-a"; ev_direction "bob" Direction.UP;
         ev_disconnect "alice"]
        Lobby.empty Demo.world = Some ((sv', fx), w')
    /\ server_ok sv'.
Proof.
  apply (server_invariant
           [ev_createRoom "alice"; ev_joinRoom "bob" "room-a";
            ev_interval "room-a"; ev_direction "bob" Direction.UP;
            ev_disconnect "alice"]
           Lobby.empty Demo.world).
  - split; cbn; constructor.
  - exact demo_world_ok.
  - repeat constructor.
Defined.

(** ** Joining, leaving and turning *)

Lemma room_ok_single k room :
  room_ok k room -> (List.length (players room) < 2)%nat ->
  exists p, players room = [p] /\ gameLoop room = None /\ id room = k.
Proof.
  intros R L. destruct (joined_room_ok "" k room 0 R L) as [_ N].
  destruct R as (Hid & Hlen & _).
  destruct (players room) as [| p [| q ps]]; cbn in *; try lia.
  now exists p.
Qed.

(** X7.  A join to a registered room with fewer than two players succeeds:
    the socket becomes the second player, behind the first; the requester
    joins the channel of the room, [roomJoined] goes to the room, and the
    interval of the room is set.  The game state of the room is the one it
    had (nothing is reset for the newcomer), and no other room changes. *)
Theorem join_success socket roomId sv room :
  server_ok sv ->
  Map.get roomId (rooms sv) = Some room ->
  (List.length (players room) < 2)%nat ->
  exists first,
    players room = [first] /\
    on_joinRoom socket roomId sv =
      (mkServer (Map.set roomId
                   (mkGameRoom roomId [first; socket] (gameState room)
                               (Some (Interval (next_timer sv))))
                   (rooms sv))
                (S (next_timer sv)),
       [socket_join socket roomId;
        io_to_emit roomId "roomJoined" no_payload;
        setInterval (Interval (next_timer sv))]) /\
    Map.get roomId (rooms (fst (on_joinRoom socket roomId sv)))
      = Some (mkGameRoom roomId [first; socket] (gameState room)
                         (Some (Interval (next_timer sv)))) /\
    (forall k, k <> roomId ->
       Map.get k (rooms (fst (on_joinRoom socket roomId sv)))
       = Map.get k (rooms sv)).
Proof.
  intros Hsv G L.
  pose proof (server_ok_room sv roomId room Hsv (map_get_In _ _ _ G)) as R.
  destruct (room_ok_single roomId room R L) as (p & Ep & En & Ei).
  rewrite (on_joinRoom_run socket roomId sv room G L).
  exists p. unfold joined_room. rewrite Ep, En, Ei. cbn [app fst rooms].
  split; [ reflexivity | ]. split; [ reflexivity | ].
  split; [ apply map_get_set | ].
  intros k Hk. now apply map_get_set_other.
Qed.

Lemma join_success_witness :
  exists first,
    players (created_room "alice" Demo.world) = [first] /\
    on_joinRoom "bob" "room-a" Lobby.waiting =
      (mkServer (Map.set "room-a"
                   (mkGameRoom "room-a" [first; "bob"%string]
                      (gameState (created_room "alice" Demo.world))
                      (Some (Interval (next_timer Lobby.waiting))))
                   (rooms Lobby.waiting))
                (S (next_timer Lobby.waiting)),
       [socket_join "bob" "room-a";
        io_to_emit "room-a" "roomJoined" no_payload;
        setInterval (Interval (next_timer Lobby.waiting))]) /\
    Map.get "room-a" (rooms (fst (on_joinRoom "bob" "room-a" Lobby.waiting)))
      = Some (mkGameRoom "room-a" [first; "bob"%string]
                (gameState (created_room "alice" Demo.world))
                (Some (Interval (next_timer Lobby.waiting)))) /\
    (forall k, k <> "room-a"%string ->
       Map.get k (rooms (fst (on_joinRoom "bob" "room-a" Lobby.waiting)))
       = Map.get k (rooms Lobby.waiting)).
Proof.
  apply (join_success "bob" "room-a" Lobby.waiting
           (created_room "alice" Demo.world)).
  - apply (server_ok_set Lobby.empty "room-a"
             (created_room "alice" Demo.world) 0).
    + split; cbn; constructor.
    + exact (created_room_ok "alice" Demo.world demo_world_ok).
  - reflexivity.
  - cbn. lia.
Defined.

(** X8.  The id that [createRoom] sends back opens the room: on any server,
    a join with that id right after the creation succeeds, and leaves under
    that id a room with the creator first and the joiner second, the state
    built at creation, and its interval set. *)
Theorem create_then_join creator joiner sv w :
  exists sv1 w1,
    on_createRoom creator sv w =
      Some ((sv1, [socket_join creator (next_uuid w);
                   socket_emit creator "roomCreated" (text (next_uuid w))]),
            w1) /\
    Map.get (next_uuid w) (rooms sv1) = Some (created_room creator w) /\
    Map.get (next_uuid w)
            (rooms (fst (on_joinRoom joiner (next_uuid w) sv1)))
      = Some (mkGameRoom (next_uuid w) [creator; joiner]
                         (fresh_state (take_uuid w))
                         (Some (Interval (next_timer sv)))) /\
    snd (on_joinRoom joiner (next_uuid w) sv1)
      = [socket_join joiner (next_uuid w);
         io_to_emit (next_uuid w) "roomJoined" no_payload;
         setInterval (Interval (next_timer sv))].
Proof.
  rewrite on_createRoom_run. eexists _, _. split; [ reflexivity | ].
  cbn [rooms].
  assert (G : Map.get (next_uuid w)
                (Map.set (next_uuid w) (created_room creator w) (rooms sv))
              = Some (created_room creator w)) by apply map_get_set.
  split; [ exact G | ].
  erewrite on_joinRoom_run; [ | cbn [rooms]; exact G | cbn; lia ].
  cbn [fst snd rooms gameLoop created_room joined_room next_timer players
       gameState id app].
  split; [ apply map_get_set | reflexivity ].
Qed.

Lemma perpendicular_neg d c :
  Direction.valid d -> Direction.valid c -> Direction.perpendicular d c ->
  Direction.valid (Direction.neg c) /\
  Direction.perpendicular (Direction.neg c) d.
Proof.
  unfold Direction.perpendicular, Direction.vertical, Direction.horizontal.
  intros Hd Hc; destruct Hd, Hc; intros P; split;
    try (constructor; fail);
    try (exfalso; vm_compute in P; intuition discriminate);
    vm_compute; intuition.
Qed.

(** X9.  The check against reversal looks at the direction stored last, not
    at the direction of the last move.  A direct request for the opposite
    direction is refused, but a perpendicular request followed by a request
    for the opposite direction, with no step in between, is accepted twice:
    the snake then heads back onto its own body, which has not moved. *)
Theorem double_turn_reverses socket d sv roomId room playerIndex :
  Map.wf (rooms sv) ->
  find_room socket (rooms sv) = Some (roomId, room, playerIndex) ->
  let r := player_snake playerIndex in
  let current := direction (get_snake r (gameState room)) in
  Direction.valid current -> Direction.valid d ->
  Direction.perpendicular d current ->
  on_direction socket (Direction.neg current) sv = sv /\
  exists room',
    find_room socket
      (rooms (on_direction socket (Direction.neg current)
                (on_direction socket d sv)))
      = Some (roomId, room', playerIndex) /\
    direction (get_snake r (gameState room')) = Direction.neg current /\
    positions (get_snake r (gameState room'))
      = positions (get_snake r (gameState room)).
Proof.
  intros W F r current Hc Hd P.
  destruct (perpendicular_neg d current Hd Hc P) as [Hn Pn].
  destruct (valid_axes d current Hd Hc) as (_ & _ & R1).
  destruct (valid_axes (Direction.neg current) d Hn Hd) as (_ & _ & R2).
  apply R1 in P. apply R2 in Pn.
  split.
  - rewrite (on_direction_run _ _ _ _ _ _ F). fold r. fold current.
    assert (E : rejected (Direction.neg current) current = true).
    { apply (rejected_valid _ _ Hn Hc). now right. }
    now rewrite E.
  - rewrite (on_direction_run socket d sv _ _ _ F). fold r. fold current.
    rewrite P.
    assert (F1 : find_room socket (Map.set roomId (turned_room r d room)
                                           (rooms sv))
                 = Some (roomId, turned_room r d room, playerIndex))
      by (now apply (find_room_set socket (rooms sv) roomId room)).
    assert (D1 : direction (get_snake r (gameState (turned_room r d room))) = d)
      by (unfold turned_room; cbn; now rewrite get_set_same).
    rewrite (on_direction_run socket _
               (mkServer (Map.set roomId (turned_room r d room) (rooms sv))
                         (next_timer sv)) _ _ _ F1).
    fold r. rewrite D1, Pn.
    cbn [rooms].
    exists (turned_room r (Direction.neg current) (turned_room r d room)).
    split.
    + apply (find_room_set socket _ roomId (turned_room r d room));
        [ now apply map_wf_set | exact F1 | reflexivity ].
    + unfold turned_room; cbn. rewrite !get_set_same. auto.
Qed.

Lemma double_turn_reverses_witness :
  on_direction "alice" (Direction.neg Direction.RIGHT) Lobby.playing
  = Lobby.playing /\
  exists room',
    find_room "alice"
      (rooms (on_direction "alice" (Direction.neg Direction.RIGHT)
                (on_direction "alice" Direction.UP Lobby.playing)))
      = Some ("room-a"%string, room', 0%nat) /\
    direction (get_snake Snake1 (gameState room'))
      = Direction.neg Direction.RIGHT /\
    positions (get_snake Snake1 (gameState room'))
      = positions (get_snake Snake1 (gameState Lobby.room_a)).
Proof.
  apply (double_turn_reverses "alice" Direction.UP Lobby.playing
           "room-a" Lobby.room_a 0 lobby_playing_wf eq_refl
           Direction.valid_RIGHT Direction.valid_UP).
  left; split; [ left | right ]; reflexivity.
Defined.

Lemma find_room_set_new socket m k room room' i :
  find_room socket m = None -> Map.get k m = Some room ->
  indexOf socket (players room') = Some i ->
  find_room socket (Map.set k room' m) = Some (k, room', i).
Proof.
  intros F G I. induction m as [| [k' v'] m IH]; simpl in *; [ discriminate | ].
  destruct (indexOf socket (players v')) eqn:E; [ discriminate | ].
  destruct (String.eqb_spec k k') as [-> | Hk]; simpl.
  - now rewrite I.
  - rewrite E. now apply IH.
Qed.

Lemma map_set_set_back {V : Type} k (v v' : V) m :
  Map.get k m = Some v -> Map.set k v (Map.set k v' m) = m.
Proof.
  induction m as [| [k' v0] m IH]; simpl; [ discriminate | ].
  destruct (String.eqb_spec k k') as [-> | Hk]; simpl.
  - intros [= ->]. now rewrite String.eqb_refl.
  - intros H. destruct (String.eqb_spec k k'); [ congruence | ].
    now rewrite IH.
Qed.

(** X10.  Joining and leaving undo each other: when a socket that plays in
    no room joins a room with one player and then disconnects, the registry
    is the one before the join (the room, its first player and its game
    state included), and the interval set by the join has been cleared. *)
Theorem join_then_leave socket roomId sv room :
  server_ok sv ->
  Map.get roomId (rooms sv) = Some room ->
  (List.length (players room) < 2)%nat ->
  find_room socket (rooms sv) = None ->
  rooms (fst (on_disconnect socket (fst (on_joinRoom socket roomId sv))))
    = rooms sv /\
  snd (on_joinRoom socket roomId sv)
    = [socket_join socket roomId; io_to_emit roomId "roomJoined" no_payload;
       setInterval (Interval (next_timer sv))] /\
  snd (on_disconnect socket (fst (on_joinRoom socket roomId sv)))
    = [clearInterval (Interval (next_timer sv))].
Proof.
  intros Hsv G L F.
  pose proof (map_get_In _ _ _ G) as Hin.
  pose proof (server_ok_room sv roomId room Hsv Hin) as R.
  destruct (room_ok_single roomId room R L) as (p & Ep & En & Ei).
  assert (Hp : p <> socket).
  { intros ->. rewrite find_room_None in F. specialize (F roomId room Hin).
    rewrite Ep in F. cbn in F. now rewrite String.eqb_refl in F. }
  rewrite (on_joinRoom_run socket roomId sv room G L).
  unfold joined_room. rewrite Ep, En, Ei. cbn [app fst snd].
  set (joined := mkGameRoom roomId [p; socket] (gameState room)
                            (Some (Interval (next_timer sv)))).
  assert (F1 : find_room socket (Map.set roomId joined (rooms sv))
               = Some (roomId, joined, 1%nat)).
  { apply (find_room_set_new socket (rooms sv) roomId room);
      [ exact F | exact G | ].
    cbn. destruct (String.eqb_spec p socket); [ congruence | ].
    now rewrite String.eqb_refl. }
  rewrite (on_disconnect_run socket
             (mkServer (Map.set roomId joined (rooms sv)) (S (next_timer sv)))
             roomId joined 1 F1).
  cbn [fst snd rooms left_room joined players splice1 List.length Nat.eqb id
       gameState gameLoop].
  split; [ | split; reflexivity ].
  apply map_set_set_back. rewrite G. f_equal.
  destruct room; cbn in *; subst; reflexivity.
Qed.

Lemma join_then_leave_witness :
  rooms (fst (on_disconnect "bob"
                (fst (on_joinRoom "bob" "room-a" Lobby.waiting))))
    = rooms Lobby.waiting /\
  snd (on_joinRoom "bob" "room-a" Lobby.waiting)
    = [socket_join "bob" "room-a"; io_to_emit "room-a" "roomJoined" no_payload;
       setInterval (Interval (next_timer Lobby.waiting))] /\
  snd (on_disconnect "bob" (fst (on_joinRoom "bob" "room-a" Lobby.waiting)))
    = [clearInterval (Interval (next_timer Lobby.waiting))].
Proof.
  apply (join_then_leave "bob" "room-a" Lobby.waiting
           (created_room "alice" Demo.world)).
  - apply (server_ok_set Lobby.empty "room-a"
             (created_room "alice" Demo.world) 0).
    + split; cbn; constructor.
    + exact (created_room_ok "alice" Demo.world demo_world_ok).
  - reflexivity.
  - cbn. lia.
  - reflexivity.
Defined.

(** X11.  Messages of a socket that is in no room's player list are
    ignored: a direction request and a disconnect leave the server as it is,
    and the disconnect emits nothing. *)
Theorem stranger_ignored socket d sv :
  (forall k room, In (k, room) (rooms sv) -> ~ In socket (players room)) ->
  on_direction socket d sv = sv /\ on_disconnect socket sv = (sv, []).
Proof.
  intros H.
  assert (F : find_room socket (rooms sv) = None).
  { apply find_room_None. intros k room Hin. apply indexOf_In. eauto. }
  unfold on_direction, on_disconnect. now rewrite F.
Qed.

Lemma stranger_ignored_witness :
  on_direction "carol" Direction.UP Lobby.playing = Lobby.playing /\
  on_disconnect "carol" Lobby.playing = (Lobby.playing, []).
Proof.
  apply (stranger_ignored "carol" Direction.UP Lobby.playing).
  intros k room [[= <- <-] | []]. cbn.
  intros [H | [H | []]]; discriminate H.
Defined.

(** X12.  The disconnect handler stops at the first room that lists the
    socket.  A socket that is listed in a second room as well (it created
    both) stays listed there after it has disconnected: that room keeps its
    players, its state and its interval, and the server still finds a room
    for the socket. *)
Theorem disconnect_cleans_one_room socket sv k1 room1 i k2 room2 :
  find_room socket (rooms sv) = Some (k1, room1, i) ->
  k2 <> k1 ->
  Map.get k2 (rooms sv) = Some room2 ->
  In socket (players room2) ->
  Map.get k2 (rooms (fst (on_disconnect socket sv))) = Some room2 /\
  find_room socket (rooms (fst (on_disconnect socket sv))) <> None.
Proof.
  intros F Hk G Hin.
  assert (G' : Map.get k2 (rooms (fst (on_disconnect socket sv))) = Some room2).
  { rewrite (on_disconnect_run socket sv k1 room1 i F). cbn [fst rooms].
    destruct (List.length (splice1 i (players room1)) =? 0)%nat.
    - rewrite map_get_delete_other by exact Hk.
      now rewrite map_get_set_other.
    - now rewrite map_get_set_other. }
  split; [ exact G' | ].
  intros N. rewrite find_room_None in N.
  specialize (N k2 room2 (map_get_In _ _ _ G')).
  apply indexOf_In in N. contradiction.
Qed.

Lemma disconnect_cleans_one_room_witness :
  let sv := mkServer [("room-a"%string, created_room "alice" Demo.world);
                      ("room-b"%string,
                       mkGameRoom "room-b" ["alice"%string] Demo.start None)]
                     0 in
  Map.get "room-b" (rooms (fst (on_disconnect "alice" sv)))
    = Some (mkGameRoom "room-b" ["alice"%string] Demo.start None) /\
  find_room "alice" (rooms (fst (on_disconnect "alice" sv))) <> None.
Proof.
  intros sv.
  apply (disconnect_cleans_one_room "alice" sv "room-a"
           (created_room "alice" Demo.world) 0 "room-b").
  - reflexivity.
  - discriminate.
  - reflexivity.
  - now left.
Defined.

(** The server of the witness above is the one that two [createRoom]
    messages of the same socket leave. *)
Example two_rooms_of_one_socket :
  option_map
    (fun r => map (fun kv => (fst kv, players (snd kv))) (rooms (fst (fst r))))
    (run [ev_createRoom "alice"; ev_createRoom "alice"] Lobby.empty Demo.world)
  = Some [("room-a"%string, ["alice"%string]);
          ("room-b"%string, ["alice"%string])].
Proof. vm_compute. reflexivity. Qed.

(** ** The interval of a room *)

(** X13.  [startGame] sets the interval of a room at most once: on a room
    whose interval is set it changes nothing and asks for no timer.
    [stopGame] after [startGame] clears exactly the handle that the room
    holds and leaves the room as [stopGame] alone would; a second
    [stopGame] does nothing.  Neither touches the players or the game
    state. *)
Theorem start_stop room next :
  let started := fst (fst (startGame room next)) in
  startGame started (snd (fst (startGame room next)))
    = (started, snd (fst (startGame room next)), []) /\
  (exists h, gameLoop started = Some h /\
             stopGame started = (set_gameLoop room None, [clearInterval h])) /\
  fst (stopGame started) = fst (stopGame room) /\
  stopGame (fst (stopGame room)) = (fst (stopGame room), []) /\
  players started = players room /\ gameState started = gameState room /\
  players (fst (stopGame room)) = players room /\
  gameState (fst (stopGame room)) = gameState room.
Proof.
  unfold startGame, stopGame.
  destruct room as [i ps gs [h |]]; cbn; repeat split; eauto.
Qed.

(** X14.  While the interval of a room is set, every tick sends the room
    one [gameState] message with the state that [update] leaves, also when
    [update] was rate-limited and the state is the one sent before; the
    players and the interval of the room stay as they are.  Once the
    interval is cleared a tick does and sends nothing. *)
Theorem tick_broadcasts room w :
  nonempty (gameState room) ->
  (gameLoop room = None -> tick room w = Some ((room, []), w)) /\
  (gameLoop room <> None ->
   exists gs' w',
     update (gameState room) w = Some ((js_undefined, gs'), w') /\
     tick room w =
       Some ((mkGameRoom (id room) (players room) gs' (gameLoop room),
              [io_to_emit (id room) "gameState" (state gs')]), w') /\
     (now_of w - lastUpdate (gameState room) <= 66 ->
      gs' = gameState room)).
Proof.
  intros Hne. unfold tick. split.
  - now intros ->.
  - intros Hl. destruct room as [i ps gs l].
    cbn [gameLoop gameState id players] in *.
    destruct l as [h |]; [ | congruence ].
    unfold bind. rewrite (update_run gs w Hne).
    destruct (too_early (now_of w) (lastUpdate gs)) eqn:T.
    + exists gs, (tick_clock w).
      split; [ reflexivity | ]. split; [ reflexivity | auto ].
    + eexists _, _. split; [ reflexivity | ]. split; [ reflexivity | ].
      intros L. apply too_early_67 in L. congruence.
Qed.

Lemma tick_broadcasts_witness :
  exists gs' w',
    update (gameState Lobby.room_a) (tick_clock (draw 2 Demo.world))
      = Some ((js_undefined, gs'), w') /\
    tick Lobby.room_a (tick_clock (draw 2 Demo.world)) =
      Some ((mkGameRoom (id Lobby.room_a) (players Lobby.room_a) gs'
                        (gameLoop Lobby.room_a),
             [io_to_emit (id Lobby.room_a) "gameState" (state gs')]), w') /\
    (now_of (tick_clock (draw 2 Demo.world))
       - lastUpdate (gameState Lobby.room_a) <= 66 ->
     gs' = gameState Lobby.room_a).
Proof.
  refine (proj2 (tick_broadcasts Lobby.room_a
                   (tick_clock (draw 2 Demo.world)) _) _).
  - split; unfold has_head; simpl; discriminate.
  - discriminate.
Defined.

(** ** Snakes that pass through each other *)

Lemma position_eqb_neq (a b : Position.t) : a <> b -> Position.eqb a b = false.
Proof. intros H. destruct (position_eqb_spec a b); congruence. Qed.

(** X15.  The collision check compares heads with cells after both snakes
    have moved, so two one-cell snakes that face each other on neighbouring
    cells change places without a collision: when neither lands on the
    food, the step leaves each snake on the cell the other came from and
    does not reset the state. *)
Theorem single_cells_pass_through now p d gs w :
  in_canvas p -> Direction.valid d ->
  positions (snake1 gs) = [p] -> direction (snake1 gs) = d ->
  positions (snake2 gs) = [newHead p d] ->
  direction (snake2 gs) = Direction.neg d ->
  position (food gs) <> p -> position (food gs) <> newHead p d ->
  exists gs1,
    moveSnakes gs w = Some (gs1, w) /\
    positions (snake1 gs1) = [newHead p d] /\
    positions (snake2 gs1) = [p] /\
    checkCollision gs1 = Some false /\
    advance now gs w = Some (set_lastUpdate gs1 now, w).
Proof.
  intros Hp Hd E1 D1 E2 D2 F1 F2.
  assert (Hne : nonempty gs) by (split; unfold has_head; congruence).
  pose proof (newHead_inverse p d Hp Hd) as Inv.
  pose proof (newHead_moves p d Hp Hd) as Mv.
  assert (A1 : eats (food gs) (snake1 gs) = false).
  { unfold eats. rewrite E1, D1. apply position_eqb_neq. congruence. }
  assert (A2 : eats (food gs) (snake2 gs) = false).
  { unfold eats. rewrite E2, D2, Inv. apply position_eqb_neq. congruence. }
  pose proof (moveSnakes_run gs w Hne) as M.
  pose proof (advance_run now gs w Hne) as Adv.
  pose proof (after_moves_nonempty gs w Hne) as Hne1.
  unfold advanced in Adv. unfold after_moves in M, Adv, Hne1.
  rewrite A1, A2 in M, Adv, Hne1. cbn [fst] in Hne1.
  unfold moved in M, Adv, Hne1.
  rewrite E1, E2, A1, A2, D1, D2, Inv in M, Adv, Hne1.
  cbv zeta in M, Adv, Hne1. cbn [removelast] in M, Adv, Hne1.
  match type of M with _ = Some (?g, _) => set (gs1 := g) in * end.
  assert (C : collides gs1 = false).
  { unfold collides, gs1; cbn [snake1 snake2 positions existsb].
    rewrite (position_eqb_neq p (newHead p d)) by congruence.
    rewrite (position_eqb_neq (newHead p d) p) by congruence.
    reflexivity. }
  exists gs1. rewrite C in Adv.
  split; [ exact M | ]. split; [ reflexivity | ]. split; [ reflexivity | ].
  split; [ | exact Adv ].
  rewrite (checkCollision_run gs1 Hne1). now rewrite C.
Qed.

Lemma single_cells_pass_through_witness :
  let gs := {| snake1 := Demo.snake [Demo.cell 400 300] Direction.RIGHT 0;
               snake2 := Demo.snake [Demo.cell 420 300] Direction.LEFT 0;
               food := {| position := Demo.cell 0 0;
                          food_color := COLORS.RED |};
               lastUpdate := 0 |} in
  exists gs1,
    moveSnakes gs Demo.world = Some (gs1, Demo.world) /\
    positions (snake1 gs1) = [newHead (Demo.cell 400 300) Direction.RIGHT] /\
    positions (snake2 gs1) = [Demo.cell 400 300] /\
    checkCollision gs1 = Some false /\
    advance 100 gs Demo.world = Some (set_lastUpdate gs1 100, Demo.world).
Proof.
  intros gs.
  apply (single_cells_pass_through 100 (Demo.cell 400 300) Direction.RIGHT
           gs Demo.world).
  - unfold in_canvas; simpl; constants; lia.
  - constructor.
  - reflexivity.
  - reflexivity.
  - reflexivity.
  - reflexivity.
  - discriminate.
  - discriminate.
Defined.

(** ** A round without input *)

Lemma newHead_RIGHT X Y :
  0 <= X -> X + 20 < CANVAS_WIDTH -> 0 <= Y < CANVAS_HEIGHT ->
  newHead (Position.mk X Y) Direction.RIGHT = Position.mk (X + 20) Y.
Proof.
  intros Hx Hx' Hy. unfold newHead.
  cbn [Position.x Position.y Direction.x Direction.y Direction.RIGHT].
  rewrite !wrap_value by (constants; lia). constants.
  repeat match goal with |- context [?a <? ?b] =>
    destruct (Z.ltb_spec a b) end; try lia; f_equal; lia.
Qed.

Lemma newHead_LEFT X Y :
  20 <= X < CANVAS_WIDTH -> 0 <= Y < CANVAS_HEIGHT ->
  newHead (Position.mk X Y) Direction.LEFT = Position.mk (X - 20) Y.
Proof.
  intros Hx Hy. unfold newHead.
  cbn [Position.x Position.y Direction.x Direction.y Direction.LEFT].
  rewrite !wrap_value by (constants; lia). constants.
  repeat match goal with |- context [?a <? ?b] =>
    destruct (Z.ltb_spec a b) end; try lia; f_equal; lia.
Qed.

Lemma in_row_weaken lo hi lo' hi' l :
  lo' <= lo -> hi <= hi' ->
  Forall (in_row lo hi) l -> Forall (in_row lo' hi') l.
Proof.
  intros Hl Hh F. eapply Forall_impl; [ | exact F ].
  intros c [Hy Hx]. split; [ exact Hy | lia ].
Qed.

(** The body behind a new head. *)
Lemma moved_behind f s h b nh :
  positions s = h :: b -> newHead h (direction s) = nh ->
  direction (moved f s) = direction s /\
  exists b', positions (moved f s) = nh :: b' /\
             forall P : Position.t -> Prop, Forall P (h :: b) -> Forall P b'.
Proof.
  intros E N. unfold moved. rewrite E. cbv zeta. rewrite N.
  destruct (eats f s); cbn [direction positions].
  - split; [ reflexivity | ]. exists (h :: b). auto.
  - split; [ reflexivity | ]. exists (removelast (h :: b)).
    split; [ reflexivity | ]. intros P. apply Forall_removelast.
Qed.

Lemma existsb_cell_false h l :
  Forall (fun c => Position.x c <> Position.x h) l ->
  existsb (fun pos => Position.eqb pos h) l = false.
Proof.
  induction 1 as [| c l Hc _ IH]; [ reflexivity | ].
  cbn [existsb]. rewrite IH, orb_false_r.
  apply position_eqb_neq. congruence.
Qed.

Lemma approaching_step k gs w :
  0 <= k <= 8 -> approaching k gs ->
  approaching (k + 1) (fst (after_moves gs w)) /\
  collides (fst (after_moves gs w)) = false.
Proof.
  intros Hk (D1 & D2 & (b1 & E1 & F1) & (b2 & E2 & F2)).
  destruct (moved_behind (food gs) (snake1 gs) _ _
              (Position.mk (200 + 20 * (k + 1)) 300) E1)
    as (D1' & b1' & E1' & F1').
  { rewrite D1, newHead_RIGHT by (constants; lia). f_equal. lia. }
  destruct (moved_behind (food gs) (snake2 gs) _ _
              (Position.mk (600 - 20 * (k + 1)) 300) E2)
    as (D2' & b2' & E2' & F2').
  { rewrite D2, newHead_LEFT by (constants; lia). f_equal. lia. }
  assert (G1 : Forall (in_row 200 (200 + 20 * (k + 1) - 20)) b1').
  { apply F1'. constructor.
    - split; cbn [Position.x Position.y]; lia.
    - eapply in_row_weaken; [ | | exact F1 ]; lia. }
  assert (G2 : Forall (in_row (600 - 20 * (k + 1) + 20) 600) b2').
  { apply F2'. constructor.
    - split; cbn [Position.x Position.y]; lia.
    - eapply in_row_weaken; [ | | exact F2 ]; lia. }
  assert (S1 : snake1 (fst (after_moves gs w)) = moved (food gs) (snake1 gs)).
  { unfold after_moves.
    destruct (eats (food gs) (snake1 gs)), (eats (food gs) (snake2 gs));
      reflexivity. }
  assert (S2 : snake2 (fst (after_moves gs w)) = moved (food gs) (snake2 gs)).
  { unfold after_moves.
    destruct (eats (food gs) (snake1 gs)), (eats (food gs) (snake2 gs));
      reflexivity. }
  split.
  - unfold approaching. rewrite S1, S2, D1', D2'.
    split; [ exact D1 | ]. split; [ exact D2 | ].
    split; [ now exists b1' | now exists b2' ].
  - unfold collides. rewrite S1, S2, E1', E2'.
    rewrite !existsb_cell_false; [ reflexivity | | | | ].
    + constructor; [ cbn [Position.x]; lia | ].
      eapply Forall_impl; [ | exact G1 ]. intros c [_ Hc]. cbn [Position.x]. lia.
    + constructor; [ cbn [Position.x]; lia | ].
      eapply Forall_impl; [ | exact G2 ]. intros c [_ Hc]. cbn [Position.x]. lia.
    + eapply Forall_impl; [ | exact G2 ]. intros c [_ Hc]. cbn [Position.x]. lia.
    + eapply Forall_impl; [ | exact G1 ]. intros c [_ Hc]. cbn [Position.x]. lia.
Qed.

Lemma approaching_nonempty k gs : approaching k gs -> nonempty gs.
Proof.
  intros (_ & _ & (b1 & E1 & _) & (b2 & E2 & _)).
  split; unfold has_head; congruence.
Qed.

Lemma approaching_advances n : forall k now gs w,
  0 <= k -> k + Z.of_nat n <= 9 -> approaching k gs ->
  exists gs' w',
    advances n now gs w = Some (gs', w') /\ approaching (k + Z.of_nat n) gs'.
Proof.
  induction n as [| n IH]; intros k now gs w Hk Hn A.
  - exists gs, w. split; [ reflexivity | ].
    now replace (k + Z.of_nat 0) with k by lia.
  - pose proof (approaching_nonempty k gs A) as Hne.
    destruct (approaching_step k gs w) as [A1 C1]; [ lia | exact A | ].
    cbn [advances]. unfold bind. rewrite (advance_run now gs w Hne).
    unfold advanced. destruct (after_moves gs w) as [gs1 w1].
    cbn [fst] in A1, C1. rewrite C1.
    destruct (IH (k + 1) now (set_lastUpdate gs1 now) w1) as (gs' & w' & R & A');
      [ lia | lia | exact A1 | ].
    exists gs', w'. split; [ exact R | ].
    now replace (k + Z.of_nat (S n)) with (k + 1 + Z.of_nat n) by lia.
Qed.

Lemma advances_snoc n now : forall gs w gs' w',
  advances n now gs w = Some (gs', w') ->
  advances (n + 1) now gs w = advance now gs' w'.
Proof.
  induction n as [| n IH]; intros gs w gs' w' R; cbn [advances Nat.add] in *.
  - unfold ret in R. injection R as -> ->. unfold bind.
    destruct (advance now gs' w') as [[g1 w1] |]; reflexivity.
  - unfold bind in *. destruct (advance now gs w) as [[g1 w1] |];
      [ | discriminate ]. now apply IH.
Qed.

Lemma approaching_fresh w : approaching 0 (fresh_state w).
Proof.
  unfold approaching, fresh_state; cbn.
  repeat split; try (exists []; split; [ reflexivity | constructor ]).
Qed.

(** X16.  A round in which no player turns lasts ten steps, whatever food
    is generated and in whatever world the steps run.  After a reset the
    snakes head for each other on the row
    y = 300: for k up to 9, after k steps the heads are at x = 200 + 20 k
    and x = 600 - 20 k and no reset has happened; on the tenth step both
    heads land on (400, 300), the collision check answers [true] and the
    state is reset. *)
Theorem idle_round (k : nat) now w w0 :
  (k <= 9)%nat ->
  (exists gs' w' b1 b2,
     advances k now (fresh_state w) w0 = Some (gs', w') /\
     positions (snake1 gs')
       = Position.mk (200 + 20 * Z.of_nat k) 300 :: b1 /\
     positions (snake2 gs')
       = Position.mk (600 - 20 * Z.of_nat k) 300 :: b2) /\
  (exists gs9 w9 gs10 w10,
     advances 9 now (fresh_state w) w0 = Some (gs9, w9) /\
     moveSnakes gs9 w9 = Some (gs10, w10) /\
     checkCollision gs10 = Some true /\
     advances 10 now (fresh_state w) w0
       = Some (set_lastUpdate (fresh_state w10) now, tick_clock (draw 2 w10))).
Proof.
  intros Hk. split.
  - destruct (approaching_advances k 0 now (fresh_state w) w0)
      as (gs' & w' & R & (_ & _ & (b1 & E1 & _) & (b2 & E2 & _)));
      [ lia | lia | apply approaching_fresh | ].
    exists gs', w', b1, b2. auto.
  - destruct (approaching_advances 9 0 now (fresh_state w) w0)
      as (gs9 & w9 & R & A); [ lia | lia | apply approaching_fresh | ].
    cbn [Z.of_nat Pos.of_succ_nat Pos.succ Z.add] in A.
    pose proof (approaching_nonempty 9 gs9 A) as Hne.
    destruct A as (D1 & D2 & (b1 & E1 & F1) & (b2 & E2 & F2)).
    destruct (moved_behind (food gs9) (snake1 gs9) _ _ (Position.mk 400 300) E1)
      as (_ & b1' & E1' & _).
    { rewrite D1. now rewrite newHead_RIGHT by (constants; lia). }
    destruct (moved_behind (food gs9) (snake2 gs9) _ _ (Position.mk 400 300) E2)
      as (_ & b2' & E2' & _).
    { rewrite D2. now rewrite newHead_LEFT by (constants; lia). }
    pose proof (moveSnakes_run gs9 w9 Hne) as M.
    pose proof (after_moves_nonempty gs9 w9 Hne) as Hne1.
    pose proof (advance_run now gs9 w9 Hne) as Adv.
    unfold advanced in Adv.
    assert (S1 : snake1 (fst (after_moves gs9 w9))
                 = moved (food gs9) (snake1 gs9)).
    { unfold after_moves.
      destruct (eats (food gs9) (snake1 gs9)), (eats (food gs9) (snake2 gs9));
        reflexivity. }
    assert (S2 : snake2 (fst (after_moves gs9 w9))
                 = moved (food gs9) (snake2 gs9)).
    { unfold after_moves.
      destruct (eats (food gs9) (snake1 gs9)), (eats (food gs9) (snake2 gs9));
        reflexivity. }
    destruct (after_moves gs9 w9) as [gs10 w10]. cbn [fst] in *.
    assert (C : collides gs10 = true).
    { apply (same_head_collides gs10 (Position.mk 400 300) b1' b2');
        [ now rewrite S1 | now rewrite S2 ]. }
    rewrite C in Adv.
    exists gs9, w9, gs10, w10.
    split; [ exact R | ]. split; [ exact M | ].
    split; [ rewrite (checkCollision_run gs10 Hne1); now rewrite C | ].
    change 10%nat with (9 + 1)%nat.
    rewrite (advances_snoc 9 now _ _ _ _ R). exact Adv.
Qed.

Lemma idle_round_witness :
  exists gs' w' b1 b2,
    advances 3 0 (fresh_state Demo.world) (tick_clock (draw 2 Demo.world))
      = Some (gs', w') /\
    positions (snake1 gs') = Position.mk (200 + 20 * Z.of_nat 3) 300 :: b1 /\
    positions (snake2 gs') = Position.mk (600 - 20 * Z.of_nat 3) 300 :: b2.
Proof.
  apply (proj1 (idle_round 3 0 Demo.world (tick_clock (draw 2 Demo.world))
                  ltac:(lia))).
Defined.
